(** * Recording-session synchronizer, transcript reconciler and stop/flush
    protocol of the meeting recorder front end

  Shallow embedding of
  - [frontend/src/contexts/RecordingStateContext.tsx]
    ([RecordingStateProvider]: [syncWithBackend], [startPolling],
    [stopPolling] and the four event listeners), and
  - the [Home] page component ([processBufferedTranscripts], the
    [transcript-update] listener and [handleRecordingStop2]).

  Conventions.  JavaScript numbers that the code only compares, adds or
  subtracts (epoch milliseconds, sequence ids, chunk start times, queue
  sizes) are integers [Z]; no claim below depends on rounding.  React state
  updates are applied at once.  Everything the environment decides (what an
  [invoke] resolves to, what [Date.now()] reads, which events are delivered
  and when) is an explicit input. *)

From Stdlib Require Import String.
From Stdlib Require Import ZArith List Bool Lia.
From Stdlib Require Import Sorting.Sorted Sorting.Permutation.
From Stdlib Require Import QArith Qround DecimalString Ascii.
From Equations Require Import Equations.
Import ListNotations.
Open Scope Z_scope.

(** Matching on a value while remembering what it is equal to. *)
Definition inspect {A : Type} (a : A) : {b : A | a = b} := exist _ a eq_refl.

(** The outcome of awaiting a Tauri [invoke]/[listen] promise. *)
Inductive invoke_result (A : Type) : Type :=
| Resolved (value : A)
| Rejected (error : string).
Arguments Resolved {A} value.
Arguments Rejected {A} error.

(* ===================================================================== *)
(** ** RecordingStateContext.tsx *)
(* ===================================================================== *)

Module RecordingStateContext.

(** [interface RecordingState]. *)
Record RecordingState : Type := mkRecordingState {
  isRecording : bool;
  isPaused : bool;
  isActive : bool;
  recordingDuration : option Z;
  activeDuration : option Z
}.

(** The payload of [invoke('get_recording_state')]. *)
Record BackendState : Type := mkBackendState {
  is_recording : bool;
  is_paused : bool;
  is_active : bool;
  recording_duration : option Z;
  active_duration : option Z
}.

(** The provider: the [useState] cell and [pollingIntervalRef] (whether an
    interval is installed). *)
Record Provider : Type := mkProvider {
  state : RecordingState;
  pollingIntervalRef : bool
}.

(** [useState<RecordingState>({...})] with an empty interval ref. *)
Definition initialState : RecordingState :=
  mkRecordingState false false false None None.

Definition initialProvider : Provider := mkProvider initialState false.

(** [syncWithBackend]: [setState] from the payload inside [try]; the
    [catch] branch only logs. *)
Definition syncWithBackend (r : invoke_result BackendState) (p : Provider)
  : Provider :=
  match r with
  | Resolved backendState =>
      mkProvider
        (mkRecordingState (is_recording backendState)
                          (is_paused backendState)
                          (is_active backendState)
                          (recording_duration backendState)
                          (active_duration backendState))
        (pollingIntervalRef p)
  | Rejected _ => p
  end.

(** [startPolling]: clear a previous interval, install a new one. *)
Definition startPolling (p : Provider) : Provider :=
  mkProvider (state p) true.

(** [stopPolling]. *)
Definition stopPolling (p : Provider) : Provider :=
  if pollingIntervalRef p then mkProvider (state p) false else p.

(** Listener of [recording-started]. *)
Definition onRecordingStarted (p : Provider) : Provider :=
  let prev := state p in
  startPolling
    (mkProvider
       (mkRecordingState true false true
                         (recordingDuration prev) (activeDuration prev))
       (pollingIntervalRef p)).

(** Listener of [recording-stopped]. *)
Definition onRecordingStopped (p : Provider) : Provider :=
  stopPolling
    (mkProvider (mkRecordingState false false false None None)
                (pollingIntervalRef p)).

(** Listener of [recording-paused]. *)
Definition onRecordingPaused (p : Provider) : Provider :=
  let prev := state p in
  mkProvider
    (mkRecordingState (isRecording prev) true false
                      (recordingDuration prev) (activeDuration prev))
    (pollingIntervalRef p).

(** Listener of [recording-resumed]. *)
Definition onRecordingResumed (p : Provider) : Provider :=
  let prev := state p in
  mkProvider
    (mkRecordingState (isRecording prev) false true
                      (recordingDuration prev) (activeDuration prev))
    (pollingIntervalRef p).

(** What can happen to a mounted provider: the completion of the initial
    sync, the completion of a sync started by the polling interval, and
    the four pushed events. *)
Inductive Event : Type :=
| InitialSync (r : invoke_result BackendState)
| PollTick (r : invoke_result BackendState)
| RecordingStarted
| RecordingStopped
| RecordingPaused
| RecordingResumed.

Definition handle (e : Event) (p : Provider) : Provider :=
  match e with
  | InitialSync r => syncWithBackend r p
  | PollTick r => syncWithBackend r p
  | RecordingStarted => onRecordingStarted p
  | RecordingStopped => onRecordingStopped p
  | RecordingPaused => onRecordingPaused p
  | RecordingResumed => onRecordingResumed p
  end.

Definition run (es : list Event) (p : Provider) : Provider :=
  fold_left (fun q e => handle e q) es p.

(** The documented meaning of [isActive]: "recording && !paused". *)
Definition active_consistent (s : RecordingState) : Prop :=
  isActive s = isRecording s && negb (isPaused s).

Definition backend_consistent (b : BackendState) : Prop :=
  is_active b = is_recording b && negb (is_paused b).

(** A failed sync: the query was rejected. *)
Definition is_failed_sync (e : Event) : bool :=
  match e with
  | InitialSync (Rejected _) | PollTick (Rejected _) => true
  | _ => false
  end.

(** An event is admissible for a provider when it is well timed: a resumed
    event comes while a recording is known to be running, and a resolved
    query carries a payload whose [is_active] is
    [is_recording && !is_paused]. *)
Definition admissible (p : Provider) (e : Event) : Prop :=
  match e with
  | InitialSync (Resolved b) | PollTick (Resolved b) => backend_consistent b
  | RecordingResumed => isRecording (state p) = true
  | _ => True
  end.

Fixpoint admissible_run (es : list Event) (p : Provider) : Prop :=
  match es with
  | [] => True
  | e :: es' => admissible p e /\ admissible_run es' (handle e p)
  end.

Definition is_started (e : Event) : bool :=
  match e with RecordingStarted => true | _ => false end.

Definition is_stopped (e : Event) : bool :=
  match e with RecordingStopped => true | _ => false end.

End RecordingStateContext.

(* ===================================================================== *)
(** ** The transcript reconciler of the [Home] page *)
(* ===================================================================== *)

Module Reconciler.

(** Modelled from the spec: the declaration of [TranscriptUpdate] in
    [@/types] is not part of the sources; the fields are those the
    listener reads from [event.payload] (spec section 6,
    [transcript-update]). *)
Module TranscriptUpdate.
Record t : Type := mk {
  text : string;
  timestamp : string;
  sequence_id : Z;
  chunk_start_time : option Z;
  is_partial : bool;
  confidence : option Z;
  audio_start_time : option Z;
  audio_end_time : option Z;
  duration : option Z
}.
End TranscriptUpdate.

(** Modelled from the spec: the declaration of [Transcript] in [@/types] is
    not part of the sources; the fields are those the listener writes.
    [id] is the string [`${Date.now()}-${transcriptCounter++}`], kept as
    its two numbers; [sequence_id] and [chunk_start_time] may be
    [undefined], as the code tests. *)
Record Transcript : Type := mkTranscript {
  id : Z * Z;
  text : string;
  timestamp : string;
  sequence_id : option Z;
  chunk_start_time : option Z;
  is_partial : bool;
  confidence : option Z;
  audio_start_time : option Z;
  audio_end_time : option Z;
  duration : option Z
}.

(** A number that may be [NaN], written [None]. *)
Definition JsNumber : Type := option Z.

(** [a - b] where [b] may be [NaN]. *)
Definition jsSub (a : Z) (b : JsNumber) : JsNumber :=
  option_map (fun v => a - v) b.

(** [a > b] and [a >= b] where [a] may be [NaN]: a comparison with [NaN]
    is false. *)
Definition jsGt (a : JsNumber) (b : Z) : bool :=
  match a with Some v => v >? b | None => false end.

Definition jsGe (a : JsNumber) (b : Z) : bool :=
  match a with Some v => v >=? b | None => false end.

(** The clock reading the listener wrote into the id. *)
Definition stampWritten (t : Transcript) : Z := fst (id t).

(** [parseInt(transcript.id.split('-')[0])].  A clock reading is a whole
    number of milliseconds, below 10^16 in size, so its text is plain
    decimal.  The text of a reading that is not negative is its digits, and
    these are what comes before the first dash.  The text of a negative
    reading starts with a dash, so the first piece of the split is empty
    and [parseInt] gives [NaN]. *)
Definition idStamp (t : Transcript) : JsNumber :=
  if stampWritten t <? 0 then None else Some (stampWritten t).

(** [x || 0] on an optional number. *)
Definition orZero (x : option Z) : Z :=
  match x with Some v => v | None => 0 end.

(** *** [Map<number, Transcript>], in insertion order *)

Definition JsMap : Type := list (Z * Transcript).

Definition map_has (k : Z) (m : JsMap) : bool :=
  existsb (fun e => fst e =? k) m.

Definition map_get (k : Z) (m : JsMap) : option Transcript :=
  option_map snd (find (fun e => fst e =? k) m).

Definition map_delete (k : Z) (m : JsMap) : JsMap :=
  filter (fun e => negb (fst e =? k)) m.

Definition map_set (k : Z) (v : Transcript) (m : JsMap) : JsMap :=
  if map_has k m
  then map (fun e => if fst e =? k then (k, v) else e) m
  else m ++ [(k, v)].

Definition map_keys (m : JsMap) : list Z := map fst m.
Definition map_values (m : JsMap) : list Transcript := map snd m.

(** *** [Array.prototype.sort] with a comparator (stable) *)

Section ArraySort.
Variable compareFn : Transcript -> Transcript -> Z.

Fixpoint sort_insert (x : Transcript) (l : list Transcript)
  : list Transcript :=
  match l with
  | [] => [x]
  | y :: l' =>
      if compareFn x y <=? 0 then x :: l else y :: sort_insert x l'
  end.

Definition array_sort (l : list Transcript) : list Transcript :=
  fold_right sort_insert [] l.
End ArraySort.

(** The comparator of both sorts: by [chunk_start_time], then by
    [sequence_id]. *)
Definition compareTranscripts (a b : Transcript) : Z :=
  let chunkTimeDiff :=
    orZero (chunk_start_time a) - orZero (chunk_start_time b) in
  if negb (chunkTimeDiff =? 0) then chunkTimeDiff
  else orZero (sequence_id a) - orZero (sequence_id b).

Definition sortTranscripts (transcripts : list Transcript)
  : list Transcript :=
  array_sort compareTranscripts transcripts.

(** *** State of the effect closure and of the [transcripts] cell *)

Record State : Type := mkState {
  transcriptCounter : Z;
  transcriptBuffer : JsMap;
  lastProcessedSequence : Z;
  transcripts : list Transcript
}.

Definition initial : State := mkState 0 [] 0 [].

Definition staleThreshold : Z := 100.
Definition recentThreshold : Z := 0.

(** *** [processBufferedTranscripts] *)

(** Deleting a key that is present shortens the map: the measure of the
    sequential loop. *)
Lemma map_delete_shrinks (k : Z) (m : JsMap) (v : Transcript) :
  map_get k m = Some v ->
  (List.length (map_delete k m) < List.length m)%nat.
Proof.
  unfold map_get, map_delete.
  induction m as [|e m IH]; simpl; [discriminate|].
  destruct (fst e =? k) eqn:E; simpl; intros Hget.
  - pose proof (filter_length_le (fun e => negb (fst e =? k)) m). lia.
  - apply IH in Hget. lia.
Qed.

(** The [while (transcriptBuffer.has(nextSequence))] loop; it returns the
    buffer, [lastProcessedSequence] and [sortedTranscripts]. *)
Equations? sequentialDrain (buffer : JsMap) (last : Z)
           (sortedTranscripts : list Transcript)
  : JsMap * Z * list Transcript by wf (List.length buffer) lt :=
  sequentialDrain buffer last sortedTranscripts
    with inspect (map_get (last + 1) buffer) => {
    | exist _ (Some bufferedTranscript) Hget =>
        sequentialDrain (map_delete (last + 1) buffer) (last + 1)
                        (sortedTranscripts ++ [bufferedTranscript]);
    | exist _ None _ => (buffer, last, sortedTranscripts) }.
Proof. eapply map_delete_shrinks; eassumption. Qed.

(** The accumulators of the [for ... of transcriptBuffer.entries()] loop. *)
Record Tiers : Type := mkTiers {
  remaining : JsMap;
  staleTranscripts : list Transcript;
  recentTranscripts : list Transcript;
  forceFlushTranscripts : list Transcript
}.

(** One iteration, on the entry [(sequenceId, transcript)]. *)
Definition tierStep (forceFlush : bool) (now : Z) (acc : Tiers)
           (entry : Z * Transcript) : Tiers :=
  let sequenceId := fst entry in
  let transcript := snd entry in
  if forceFlush then
    mkTiers (map_delete sequenceId (remaining acc))
            (staleTranscripts acc) (recentTranscripts acc)
            (forceFlushTranscripts acc ++ [transcript])
  else
    let transcriptAge := jsSub now (idStamp transcript) in
    if jsGt transcriptAge staleThreshold then
      mkTiers (map_delete sequenceId (remaining acc))
              (staleTranscripts acc ++ [transcript])
              (recentTranscripts acc) (forceFlushTranscripts acc)
    else if jsGe transcriptAge recentThreshold then
      mkTiers (map_delete sequenceId (remaining acc))
              (staleTranscripts acc)
              (recentTranscripts acc ++ [transcript])
              (forceFlushTranscripts acc)
    else acc.

(** The whole loop: the entries are visited in insertion order; an entry
    is deleted only while it is the current one, so the visit is that of
    the entries present when the loop starts. *)
Definition tierLoop (forceFlush : bool) (now : Z) (buffer : JsMap) : Tiers :=
  fold_left (tierStep forceFlush now) buffer (mkTiers buffer [] [] []).

(** [existingSequenceIds]. *)
Fixpoint definedIds (l : list Transcript) : list Z :=
  match l with
  | [] => []
  | t :: l' =>
      match sequence_id t with
      | Some s => s :: definedIds l'
      | None => definedIds l'
      end
  end.

Definition set_has (s : Z) (ids : list Z) : bool :=
  existsb (Z.eqb s) ids.

(** [uniqueNewTranscripts]: the new transcripts whose sequence id is defined
    and not among those of [prev]. *)
Definition uniqueNewTranscripts (allNewTranscripts prev : list Transcript)
  : list Transcript :=
  let existingSequenceIds := definedIds prev in
  filter (fun transcript =>
            match sequence_id transcript with
            | Some s => negb (set_has s existingSequenceIds)
            | None => false
            end) allNewTranscripts.

(** The updater passed to [setTranscripts]. *)
Definition mergeTranscripts (allNewTranscripts prev : list Transcript)
  : list Transcript :=
  let unique := uniqueNewTranscripts allNewTranscripts prev in
  if (Z.of_nat (List.length unique) =? 0) then prev
  else array_sort compareTranscripts (prev ++ unique).

(** One call of [processBufferedTranscripts]: the state it leaves and its
    [allNewTranscripts], the batch handed to the updater (which is called
    only for a batch that is not empty). *)
Definition reductionPass (forceFlush : bool) (now : Z) (st : State)
  : State * list Transcript :=
  let '(buffer1, last1, sortedTranscripts) :=
    sequentialDrain (transcriptBuffer st) (lastProcessedSequence st) [] in
  let tiers := tierLoop forceFlush now buffer1 in
  let sortedStaleTranscripts := sortTranscripts (staleTranscripts tiers) in
  let sortedRecentTranscripts := sortTranscripts (recentTranscripts tiers) in
  let sortedForceFlushTranscripts :=
    sortTranscripts (forceFlushTranscripts tiers) in
  let allNewTranscripts :=
    sortedTranscripts ++ sortedRecentTranscripts ++ sortedStaleTranscripts
      ++ sortedForceFlushTranscripts in
  (mkState (transcriptCounter st)
           (remaining tiers)
           last1
           (if 0 <? Z.of_nat (List.length allNewTranscripts)
            then mergeTranscripts allNewTranscripts (transcripts st)
            else transcripts st),
   allNewTranscripts).

Definition processBufferedTranscripts (forceFlush : bool) (now : Z)
           (st : State) : State :=
  fst (reductionPass forceFlush now st).

Definition allNewTranscripts (forceFlush : bool) (now : Z) (st : State)
  : list Transcript :=
  snd (reductionPass forceFlush now st).

(** *** The [transcript-update] listener *)

Definition onTranscriptUpdate (payload : TranscriptUpdate.t) (now : Z)
           (st : State) : State :=
  if map_has (TranscriptUpdate.sequence_id payload) (transcriptBuffer st)
  then st
  else
    let newTranscript :=
      mkTranscript (now, transcriptCounter st)
                   (TranscriptUpdate.text payload)
                   (TranscriptUpdate.timestamp payload)
                   (Some (TranscriptUpdate.sequence_id payload))
                   (TranscriptUpdate.chunk_start_time payload)
                   (TranscriptUpdate.is_partial payload)
                   (TranscriptUpdate.confidence payload)
                   (TranscriptUpdate.audio_start_time payload)
                   (TranscriptUpdate.audio_end_time payload)
                   (TranscriptUpdate.duration payload) in
    mkState (transcriptCounter st + 1)
            (map_set (TranscriptUpdate.sequence_id payload) newTranscript
                     (transcriptBuffer st))
            (lastProcessedSequence st)
            (transcripts st).

(** *** Runs of the reconciler

    An arrival carries the payload and the [Date.now()] read by the
    listener; a pass is a firing of the debounce timer
    ([forceFlush = false]) or a call of [finalFlushRef.current]
    ([forceFlush = true]) with the [Date.now()] it reads.  Passes may
    occur anywhere in a run, which covers every schedule of the timer. *)
Inductive Event : Type :=
| Arrive (payload : TranscriptUpdate.t) (now : Z)
| Pass (forceFlush : bool) (now : Z).

Definition step (st : State) (e : Event) : State :=
  match e with
  | Arrive payload now => onTranscriptUpdate payload now st
  | Pass forceFlush now => processBufferedTranscripts forceFlush now st
  end.

Definition run (es : list Event) (st : State) : State :=
  fold_left step es st.

(** The sequence ids delivered in a run. *)
Fixpoint arrivedIds (es : list Event) : list Z :=
  match es with
  | [] => []
  | Arrive payload _ :: es' =>
      TranscriptUpdate.sequence_id payload :: arrivedIds es'
  | Pass _ _ :: es' => arrivedIds es'
  end.

(** The emitted output and its keys. *)
Definition emittedIds (st : State) : list (option Z) :=
  map sequence_id (transcripts st).

(** [(chunk_start_time, sequence_id)] ascending, lexicographically. *)
Definition key_le (a b : Transcript) : Prop :=
  orZero (chunk_start_time a) < orZero (chunk_start_time b)
  \/ (orZero (chunk_start_time a) = orZero (chunk_start_time b)
      /\ orZero (sequence_id a) <= orZero (sequence_id b)).

Definition ordered (l : list Transcript) : Prop := StronglySorted key_le l.

(** A buffer is well formed when its keys are distinct and every entry is
    stored under its own sequence id. *)
Definition wf_buffer (m : JsMap) : Prop :=
  NoDup (map_keys m)
  /\ Forall (fun e => sequence_id (snd e) = Some (fst e)) m.

(** The tier an entry falls in during the [for] loop. *)
Inductive Tier : Type := Stale | Recent | Forced | Kept.

Definition tierOf (forceFlush : bool) (now : Z) (transcript : Transcript)
  : Tier :=
  if forceFlush then Forced
  else
    let transcriptAge := jsSub now (idStamp transcript) in
    if jsGt transcriptAge staleThreshold then Stale
    else if jsGe transcriptAge recentThreshold then Recent
    else Kept.

Definition tier_eqb (a b : Tier) : bool :=
  match a, b with
  | Stale, Stale | Recent, Recent | Forced, Forced | Kept, Kept => true
  | _, _ => false
  end.

(** The entries of a buffer that fall in a given tier, in order. *)
Definition select (forceFlush : bool) (now : Z) (tier : Tier) (m : JsMap)
  : JsMap :=
  filter (fun e => tier_eqb (tierOf forceFlush now (snd e)) tier) m.

(** What every reachable state of the reconciler satisfies. *)
Record invariant (st : State) : Prop := mkInvariant {
  inv_buffer : wf_buffer (transcriptBuffer st);
  inv_ordered : ordered (transcripts st);
  inv_unique : NoDup (emittedIds st);
  inv_watermark :
    forall s, 0 < s <= lastProcessedSequence st ->
              In (Some s) (emittedIds st)
}.

(** How the ids delivered by a run [es] are accounted for in the state it
    leads to: each is emitted or still buffered, and nothing else is. *)
Record accounted (es : list Event) (st : State) : Prop := mkAccounted {
  acc_arrived :
    forall s, In s (arrivedIds es) ->
              In (Some s) (emittedIds st)
              \/ In s (map_keys (transcriptBuffer st));
  acc_emitted :
    forall x, In x (emittedIds st) ->
              exists s, x = Some s /\ In s (arrivedIds es);
  acc_buffered :
    forall s, In s (map_keys (transcriptBuffer st)) -> In s (arrivedIds es)
}.

(** Equality of optional sequence ids is decidable (for counting). *)
Definition id_eq_dec (x y : option Z) : {x = y} + {x <> y}.
Proof. decide equality. apply Z.eq_dec. Defined.

(** How many times an id occurs in the emitted output. *)
Definition occurrences (s : Z) (st : State) : nat :=
  count_occ id_eq_dec (emittedIds st) (Some s).

(** The buffer invariant in the words of the data model: every delivered
    segment at or below the watermark is in the output exactly once, and no
    buffered segment has been emitted. *)
Definition buffer_invariant_as_stated (es : list Event) (st : State) : Prop :=
  (forall s, In s (arrivedIds es) -> s <= lastProcessedSequence st ->
             occurrences s st = 1%nat)
  /\ (forall s, In s (map_keys (transcriptBuffer st)) ->
                ~ In (Some s) (emittedIds st)).

(** A payload with a given sequence id and chunk start time, for
    examples. *)
Definition segment (s : Z) (chunk : Z) (body : string)
  : TranscriptUpdate.t :=
  TranscriptUpdate.mk body EmptyString s (Some chunk) false None None None
                      None.

(** Example runs.  Segments 1 and 2 are delivered and emitted, which moves
    the watermark to 2; then segment 1 is delivered again. *)
Definition firstDelivery : list Event :=
  [Arrive (segment 1 0 "hello") 1000; Arrive (segment 2 1 "world") 1001;
   Pass false 1011].

Definition redelivery : list Event :=
  firstDelivery ++ [Arrive (segment 1 0 "hello") 1020].

(** Segments 2 and 5 are delivered while segment 1 is missing. *)
Definition gapDelivery : list Event :=
  [Arrive (segment 2 20 "two") 1000; Arrive (segment 5 50 "five") 1001].

(** The run that delivers the given payloads, each at its clock reading, in
    the order of the list. *)
Definition arrivals (ps : list (TranscriptUpdate.t * Z)) : list Event :=
  map (fun p => Arrive (fst p) (snd p)) ps.

(** The sequence ids [1, 2, ..., n]. *)
Definition firstIds (n : nat) : list Z := map Z.of_nat (seq 1 n).

(** The transcripts the reconciler holds: those waiting in the buffer and
    those in the output. *)
Definition knownTranscripts (st : State) : list Transcript :=
  map_values (transcriptBuffer st) ++ transcripts st.

(** The retention rule in the words of the data model: whatever the run,
    every pass, forced or not, leaves the buffer empty. *)
Definition no_segment_retained_as_stated : Prop :=
  forall (es : list Event) (forceFlush : bool) (now : Z),
    transcriptBuffer
      (processBufferedTranscripts forceFlush now (run es initial)) = [].

(** The clock reading written into the id of a buffered entry is one the
    pass at [now] can take an age of: it is not negative (the id parses)
    and not later than [now] (the age is not negative). *)
Definition stampUsable (now : Z) (e : Z * Transcript) : bool :=
  (0 <=? stampWritten (snd e)) && (stampWritten (snd e) <=? now).

End Reconciler.

(* ===================================================================== *)
(** ** [handleRecordingStop2]: the stop/flush protocol *)
(* ===================================================================== *)

Module StopFlush.

Import Reconciler.

(** The payload of [invoke('get_transcription_status')]. *)
Record TranscriptionStatus : Type := mkStatus {
  chunks_in_queue : Z;
  is_processing : bool;
  last_activity_ms : Z
}.

Definition MAX_WAIT_TIME : Z := 60000.
Definition POLL_INTERVAL : Z := 500.

(** Everything the protocol receives from outside during one run. *)
Record Env : Type := mkEnv {
  (** [await listen('transcription-complete', ...)] (and the dynamic
      imports before it). *)
  listenComplete : invoke_result unit;
  (** What the [k]-th [get_transcription_status] query settles to. *)
  transcriptionStatus : nat -> invoke_result TranscriptionStatus;
  (** Whether [transcription-complete] is delivered while the [k]-th
      query is awaited, and while the [k]-th [POLL_INTERVAL] timeout is
      awaited: the listener then sets [transcriptionComplete]. *)
  completeDuringPoll : nat -> bool;
  completeDuringSleep : nat -> bool;
  (** Whether [finalFlushRef.current] holds the flush function. *)
  finalFlushRef : bool;
  (** What the reconciler does while the protocol waits before the flush,
      the [Date.now()] of the flush, and what the reconciler does during
      the 500 ms that follow it. *)
  beforeFlush : list Reconciler.Event;
  flushNow : Z;
  afterFlush : list Reconciler.Event;
  (** The title cell and the two [sessionStorage] items. *)
  meetingTitle : string;
  folderPath : option string;
  savedMeetingName : option string;
  (** [invoke('api_save_transcript', ...)]: the [meeting_id] of the
      response, if any; then [refetchMeetings()]. *)
  saveTranscript : invoke_result (option string);
  refetchMeetings : invoke_result unit
}.

(** The two local variables of the polling loop when it is left, and the
    number of status queries issued. *)
Record Wait : Type := mkWait {
  elapsedTime : Z;
  transcriptionComplete : bool;
  polls : nat
}.

(** [!status.is_processing && status.chunks_in_queue === 0]. *)
Definition queueIdle (status : TranscriptionStatus) : bool :=
  negb (is_processing status) && (chunks_in_queue status =? 0).

(** [status.last_activity_ms > 8000 && status.chunks_in_queue === 0]. *)
Definition queueQuiet (status : TranscriptionStatus) : bool :=
  (last_activity_ms status >? 8000) && (chunks_in_queue status =? 0).

(** The measure of the polling loop: what is left of the maximum wait. *)
Definition waitBudget (elapsed : Z) : nat :=
  Z.to_nat (MAX_WAIT_TIME - elapsed).
Arguments waitBudget : simpl never.

Lemma waitBudget_decreases (elapsed : Z) :
  (elapsed <? MAX_WAIT_TIME) = true ->
  (waitBudget (elapsed + POLL_INTERVAL) < waitBudget elapsed)%nat.
Proof.
  intros Hlt. apply Z.ltb_lt in Hlt.
  unfold waitBudget, MAX_WAIT_TIME, POLL_INTERVAL in *. lia.
Qed.

(** [while (elapsedTime < MAX_WAIT_TIME && !transcriptionComplete)], from
    its [k]-th iteration on. *)
Equations? pollLoop (env : Env) (k : nat) (elapsed : Z) (complete : bool)
  : Wait by wf (waitBudget elapsed) lt :=
  pollLoop env k elapsed complete
    with inspect ((elapsed <? MAX_WAIT_TIME) && negb complete) => {
    | exist _ false _ => mkWait elapsed complete k;
    | exist _ true Hcond with transcriptionStatus env k => {
      | Rejected _ =>
          mkWait elapsed (complete || completeDuringPoll env k) (S k);
      | Resolved status with queueIdle status => {
        | true => mkWait elapsed true (S k);
        | false with queueQuiet status => {
          | true => mkWait elapsed true (S k);
          | false =>
              pollLoop env (S k) (elapsed + POLL_INTERVAL)
                       (complete || completeDuringPoll env k
                        || completeDuringSleep env k) } } } }.
Proof.
  apply andb_prop in Hcond. destruct Hcond as [Hlt _].
  apply waitBudget_decreases, Hlt.
Qed.

(** The steps a run goes through, with what each one handles:
    the polling loop, the 4000 ms wait for late segments, the call of
    [finalFlushRef.current], the call of [api_save_transcript], the success
    path after it (storage cleaned, meeting set, success toast), the end of
    the [try] block, and the [catch] block. *)
Inductive Phase : Type :=
| DrainingTranscription (w : Wait)
| GraceWindow
| ForcedFlush
| Persisting (title : option string) (freshTranscripts : list Transcript)
             (folder : option string)
| Saved (meetingId : string)
| Stopped
| Failed.

Record Run : Type := mkRun {
  phases : list Phase;
  reconciler : Reconciler.State
}.

(** [meetingTitle || savedMeetingName]. *)
Definition titleOr (title : string) (saved : option string)
  : option string :=
  match title with
  | EmptyString => saved
  | _ => Some title
  end.

(** [responseData.meeting_id] when it passes [if (!meetingId)]. *)
Definition meetingIdOf (response : option string) : option string :=
  match response with
  | Some (String c rest) => Some (String c rest)
  | _ => None
  end.

(** The [if (isCallApi && transcriptionComplete == true)] block and what
    follows it. *)
Definition persist (env : Env) (isCallApi : bool) (w : Wait)
           (recon : Reconciler.State) : list Phase :=
  if isCallApi && transcriptionComplete w then
    let freshTranscripts := transcripts recon in
    Persisting (titleOr (meetingTitle env) (savedMeetingName env))
               freshTranscripts (folderPath env)
    :: match saveTranscript env with
       | Resolved response =>
           match meetingIdOf response with
           | Some meetingId =>
               match refetchMeetings env with
               | Resolved _ => [Saved meetingId; Stopped]
               | Rejected _ => [Failed]
               end
           | None => [Failed]
           end
       | Rejected _ => [Failed]
       end
  else [Stopped].

Definition handleRecordingStop2 (env : Env) (isCallApi : bool)
           (recon : Reconciler.State) : Run :=
  match listenComplete env with
  | Rejected _ => mkRun [Failed] recon
  | Resolved _ =>
      let w := pollLoop env 0 0 false in
      let timedOut :=
        negb (transcriptionComplete w)
        && (MAX_WAIT_TIME <=? elapsedTime w) in
      let grace := if timedOut then [] else [GraceWindow] in
      let recon1 := Reconciler.run (beforeFlush env) recon in
      let recon2 :=
        if finalFlushRef env
        then processBufferedTranscripts true (flushNow env) recon1
        else recon1 in
      let flush := if finalFlushRef env then [ForcedFlush] else [] in
      let recon3 := Reconciler.run (afterFlush env) recon2 in
      mkRun (DrainingTranscription w :: grace ++ flush
               ++ persist env isCallApi w recon3)
            recon3
  end.

(** Whether the [k]-th iteration of the polling loop finds one of the three
    completion conditions: the event (delivered while the query or the
    timeout is awaited), an idle empty queue, or a quiet empty queue. *)
Definition completionAt (env : Env) (k : nat) : bool :=
  completeDuringPoll env k
  || match transcriptionStatus env k with
     | Resolved status =>
         queueIdle status || queueQuiet status || completeDuringSleep env k
     | Rejected _ => false
     end.

(** Whether the [k]-th status query is rejected. *)
Definition pollFails (env : Env) (k : nat) : bool :=
  match transcriptionStatus env k with
  | Resolved _ => false
  | Rejected _ => true
  end.




(** Whether a forced flush is directly followed by the hand-over to
    persistence. *)
Fixpoint persistsAfterFlush (ps : list Phase) : bool :=
  match ps with
  | ForcedFlush :: ((Persisting _ _ _ :: _) as rest) => true
  | _ :: rest => persistsAfterFlush rest
  | [] => false
  end.

(** Whether a run reached the success path of the save. *)
Definition durablyClosed (r : Run) : bool :=
  existsb (fun p => match p with Saved _ => true | _ => false end)
          (phases r).

(** An environment in which the queue never drains and the completion
    event never comes. *)
Definition busyStatus : TranscriptionStatus := mkStatus 3 true 0.

Definition stuckEnv : Env :=
  mkEnv (Resolved tt) (fun _ => Resolved busyStatus)
        (fun _ => false) (fun _ => false) true
        [] 0 [] "Weekly sync"%string (Some "/recordings/weekly"%string)
        None (Resolved (Some "meeting-1"%string)) (Resolved tt).

(** An environment whose first status query already finds the queue
    empty and idle. *)
Definition idleEnv : Env :=
  mkEnv (Resolved tt) (fun _ => Resolved (mkStatus 0 false 0))
        (fun _ => false) (fun _ => false) true
        [] 0 [] "Weekly sync"%string (Some "/recordings/weekly"%string)
        None (Resolved (Some "meeting-1"%string)) (Resolved tt).

(** Whether a phase is the hand-over to persistence. *)
Definition is_persisting (p : Phase) : bool :=
  match p with Persisting _ _ _ => true | _ => false end.

(** Whether the [k]-th iteration reaches its [POLL_INTERVAL] timeout: its
    query settles with a queue that is neither idle nor quiet. *)
Definition sleepsAt (env : Env) (k : nat) : bool :=
  match transcriptionStatus env k with
  | Resolved status => negb (queueIdle status) && negb (queueQuiet status)
  | Rejected _ => false
  end.

(** Whether the [k]-th iteration ends the loop: it meets a completion
    condition or its query is rejected. *)
Definition decisive (env : Env) (k : nat) : bool :=
  completionAt env k || pollFails env k.

(** An environment whose third status query is rejected. *)
Definition flakyEnv : Env :=
  mkEnv (Resolved tt)
        (fun k => match k with
                  | 2%nat => Rejected "status unavailable"
                  | _ => Resolved busyStatus
                  end)
        (fun _ => false) (fun _ => false) true
        [] 0 [] "Weekly sync"%string (Some "/recordings/weekly"%string)
        None (Resolved (Some "meeting-1"%string)) (Resolved tt).

End StopFlush.

(* ===================================================================== *)
(** ** What the page and the status bar display *)
(* ===================================================================== *)

Module Display.

(** [n.toString()] for an integer [n] (below 10^21 in size, where
    JavaScript prints plain decimal digits). *)
Definition toString (n : Z) : string :=
  NilZero.string_of_int (Z.to_int n).

(** [s.padStart(2, '0')]. *)
Definition padStart2 (s : string) : string :=
  match String.length s with
  | 0%nat => "00"
  | 1%nat => "0" ++ s
  | _ => s
  end.

(** [formatDuration] of [RecordingStatusBar]; its argument is
    [displaySeconds], a whole number of seconds.  [Math.floor(seconds / 60)]
    is the floored quotient, [%] the remainder with the sign of the
    dividend. *)
Definition formatDuration (seconds : Z) : string :=
  let mins := seconds / 60 in
  let secs := Z.rem seconds 60 in
  padStart2 (toString mins) ++ ":" ++ padStart2 (toString secs).

(** [formatTime] of [handleCopyTranscript]; its argument is
    [audio_start_time], a number of seconds with a fraction, or
    [undefined]. *)
Definition formatTime (seconds : option Q) : string :=
  match seconds with
  | None => "[--:--]"
  | Some x =>
      let totalSecs := Qfloor x in
      let mins := totalSecs / 60 in
      let secs := Z.rem totalSecs 60 in
      "[" ++ padStart2 (toString mins) ++ ":" ++ padStart2 (toString secs)
          ++ "]"
  end.

(** The decimal digit [d] as a character, and a number below 100 written
    with two digits. *)
Definition digit (d : Z) : ascii := ascii_of_nat (48 + Z.to_nat d).

Definition twoDigits (n : Z) : string :=
  String (digit (n / 10)) (String (digit (n mod 10)) EmptyString).

End Display.

(* ===================================================================== *)
(** ** The recording-state check of the [Home] page *)
(* ===================================================================== *)

Module HomePage.

(** The two flags the check writes: the page's own [isRecording] cell and
    the sidebar's [isMeetingActive]. *)
Record Flags : Type := mkFlags {
  isRecording : bool;
  isMeetingActive : bool
}.

(** [checkRecordingState], run by the interval of the mount effect.
    [captured] is the [isRecording] its closure holds, [r] what
    [invoke('is_recording')] settles to. *)
Definition checkRecordingState (captured : bool) (r : invoke_result bool)
           (ui : Flags) : Flags :=
  match r with
  | Resolved isCurrentlyRecording =>
      if isCurrentlyRecording && negb captured then mkFlags true true
      else if negb isCurrentlyRecording && captured
           then mkFlags false (isMeetingActive ui)
           else ui
  | Rejected _ => ui
  end.

End HomePage.

(* ===================================================================== *)
(** * Properties *)
(* ===================================================================== *)

(** ** The recording-state synchronizer *)

Module RecordingStateFacts.

Import RecordingStateContext.

Lemma started_consistent (p : Provider) :
  active_consistent (state (onRecordingStarted p)).
Proof. reflexivity. Qed.

Lemma stopped_consistent (p : Provider) :
  active_consistent (state (onRecordingStopped p)).
Proof.
  unfold onRecordingStopped, stopPolling; simpl.
  destruct (pollingIntervalRef p); reflexivity.
Qed.

Lemma paused_consistent (p : Provider) :
  active_consistent (state (onRecordingPaused p)).
Proof.
  unfold active_consistent; simpl. now rewrite andb_false_r.
Qed.

(** The resumed listener keeps [isActive] meaningful exactly when a
    recording is known to be running. *)
Lemma resumed_consistent_iff (p : Provider) :
  active_consistent (state (onRecordingResumed p))
  <-> isRecording (state p) = true.
Proof.
  unfold active_consistent; simpl. rewrite andb_true_r.
  split; intros H; now rewrite H.
Qed.

Lemma sync_consistent (b : BackendState) (p : Provider) :
  backend_consistent b ->
  active_consistent (state (syncWithBackend (Resolved b) p)).
Proof. intros H; exact H. Qed.

(** C2, at the failing input: a [recording-resumed] event handled by a
    provider whose cache is idle (its initial value, or its value after a
    [recording-stopped]) leaves [isActive = true] beside
    [isRecording = false], which is not [isRecording && !isPaused]. *)
Theorem resumed_while_idle_breaks_isActive :
  let p := handle RecordingResumed initialProvider in
  state p = mkRecordingState false false true None None
  /\ ~ active_consistent (state p)
  /\ ~ active_consistent
         (state (run [RecordingStarted; RecordingStopped; RecordingResumed]
                     initialProvider)).
Proof.
  repeat split; unfold active_consistent; simpl; discriminate.
Qed.

(** X19: rejected queries can be erased from any history of the provider:
    the history with them and the history without them lead to the same
    cached state and the same polling interval. *)
Lemma run_without_failed_syncs (es : list Event) (p : Provider) :
  run es p = run (filter (fun e => negb (is_failed_sync e)) es) p.
Proof.
  revert p. induction es as [|e es IH]; intros p; [reflexivity|].
  destruct e as [[b|err]|[b|err]| | | | ]; simpl; apply IH.
Qed.

(** C7: a sync whose query is rejected, be it the initial one or one of
    the polling interval, returns the provider as it was: the cached
    state (and the interval) are those before the call. *)
Theorem failed_sync_keeps_state (p : Provider) (error : string) :
  syncWithBackend (Rejected error) p = p
  /\ state (handle (InitialSync (Rejected error)) p) = state p
  /\ state (handle (PollTick (Rejected error)) p) = state p.
Proof. repeat split. Qed.

(** *** Further properties of the provider *)

Lemma handle_consistent (p : Provider) (e : Event) :
  active_consistent (state p) -> admissible p e ->
  active_consistent (state (handle e p)).
Proof.
  intros Hp Hadm. destruct e as [[b|err]|[b|err]| | | | ]; simpl in *;
    try assumption.
  - apply started_consistent.
  - apply stopped_consistent.
  - apply paused_consistent.
  - now apply resumed_consistent_iff.
Qed.

(** X1: along a run in which every resumed event finds the cache with
    [isRecording] set and every resolved query carries a consistent payload,
    the cached state keeps [isActive = isRecording && !isPaused], from any
    consistent starting state; rejected queries, started, stopped and paused
    events need no condition. *)
Theorem well_timed_run_consistent (es : list Event) (p : Provider) :
  active_consistent (state p) -> admissible_run es p ->
  active_consistent (state (run es p)).
Proof.
  revert p. induction es as [|e es IH]; intros p Hp Hadm; [exact Hp|].
  destruct Hadm as [He Hes].
  change (run (e :: es) p) with (run es (handle e p)).
  apply IH; [now apply handle_consistent | exact Hes].
Qed.

Lemma well_timed_run_consistent_witness :
  active_consistent
    (state (run [RecordingStarted; RecordingPaused;
                 PollTick (Rejected "offline"); RecordingResumed;
                 PollTick (Resolved (mkBackendState true false true
                                                    (Some 12) (Some 7)));
                 RecordingStopped]
                initialProvider)).
Proof.
  apply well_timed_run_consistent.
  - reflexivity.
  - simpl. repeat split.
Defined.

Lemma polling_untouched (es : list Event) (p : Provider) :
  Forall (fun e => is_started e = false /\ is_stopped e = false) es ->
  pollingIntervalRef (run es p) = pollingIntervalRef p.
Proof.
  revert p. induction es as [|e es IH]; intros p H; [reflexivity|].
  inversion H as [|? ? [Hs Ht] Hes]; subst.
  change (run (e :: es) p) with (run es (handle e p)).
  rewrite IH by exact Hes.
  destruct e as [[b|err]|[b|err]| | | | ]; simpl in *;
    try reflexivity; discriminate.
Qed.

Lemma provider_run_app (es1 es2 : list Event) (p : Provider) :
  run (es1 ++ es2) p = run es2 (run es1 p).
Proof. unfold run. apply fold_left_app. Qed.

(** X2: the polling interval is installed from a started event until the
    next stopped event and at no other time: events other than started and
    stopped, among them queries that are rejected, leave it as it is; after
    a started event it is installed as long as no stopped event follows;
    after a stopped event it is cleared as long as no started event
    follows. *)
Theorem polling_follows_started_and_stopped (es1 es2 : list Event)
        (p : Provider) :
  (Forall (fun e => is_started e = false /\ is_stopped e = false) es2 ->
   pollingIntervalRef (run es2 p) = pollingIntervalRef p)
  /\ (Forall (fun e => is_stopped e = false) es2 ->
      pollingIntervalRef (run (es1 ++ RecordingStarted :: es2) p) = true)
  /\ (Forall (fun e => is_started e = false) es2 ->
      pollingIntervalRef (run (es1 ++ RecordingStopped :: es2) p) = false).
Proof.
  split; [apply polling_untouched|].
  assert (Hon : forall es q, Forall (fun e => is_stopped e = false) es ->
                             pollingIntervalRef q = true ->
                             pollingIntervalRef (run es q) = true).
  { induction es as [|e es IH]; intros q H Hq; [exact Hq|].
    inversion H as [|? ? He Hes]; subst.
    change (run (e :: es) q) with (run es (handle e q)).
    apply IH; [exact Hes|].
    destruct e as [[b|err]|[b|err]| | | | ]; simpl in *;
      try assumption; try reflexivity; discriminate. }
  assert (Hoff : forall es q, Forall (fun e => is_started e = false) es ->
                              pollingIntervalRef q = false ->
                              pollingIntervalRef (run es q) = false).
  { induction es as [|e es IH]; intros q H Hq; [exact Hq|].
    inversion H as [|? ? He Hes]; subst.
    change (run (e :: es) q) with (run es (handle e q)).
    apply IH; [exact Hes|].
    destruct e as [[b|err]|[b|err]| | | | ]; simpl in *;
      try assumption; try discriminate.
    unfold onRecordingStopped, stopPolling. simpl.
    now destruct (pollingIntervalRef q). }
  split; intros H; rewrite provider_run_app;
    change (run (?e :: es2) ?q) with (run es2 (handle e q)).
  - apply Hon; [exact H | reflexivity].
  - apply Hoff; [exact H|].
    simpl. unfold onRecordingStopped, stopPolling. simpl.
    now destruct (pollingIntervalRef (run es1 p)).
Qed.

(** X3: a paused event followed by a resumed event gives back the provider
    it started from exactly when that provider was not paused and had
    [isActive] set; in every case the pair leaves [isRecording], the two
    durations and the polling interval as they were. *)
Theorem pause_resume_round_trip (p : Provider) :
  (onRecordingResumed (onRecordingPaused p) = p <->
   isPaused (state p) = false /\ isActive (state p) = true)
  /\ isRecording (state (onRecordingResumed (onRecordingPaused p)))
     = isRecording (state p)
  /\ recordingDuration (state (onRecordingResumed (onRecordingPaused p)))
     = recordingDuration (state p)
  /\ activeDuration (state (onRecordingResumed (onRecordingPaused p)))
     = activeDuration (state p)
  /\ pollingIntervalRef (onRecordingResumed (onRecordingPaused p))
     = pollingIntervalRef p.
Proof.
  destruct p as [[r pa a rd ad] poll]. unfold onRecordingResumed,
    onRecordingPaused. simpl. split; [|repeat split].
  split.
  - intros Heq. injection Heq as Hpa Ha. now subst.
  - intros [-> ->]. reflexivity.
Qed.

End RecordingStateFacts.

(** ** The transcript reconciler *)

Module ReconcilerFacts.

Import Reconciler.

(** *** The map operations *)

Lemma map_has_In (k : Z) (m : JsMap) :
  map_has k m = true <-> In k (map_keys m).
Proof.
  unfold map_has, map_keys. rewrite existsb_exists, in_map_iff.
  split; intros [e [H1 H2]]; exists e.
  - apply Z.eqb_eq in H2. now split.
  - split; [assumption | now apply Z.eqb_eq].
Qed.

Lemma map_get_In (k : Z) (m : JsMap) (v : Transcript) :
  map_get k m = Some v -> In (k, v) m.
Proof.
  unfold map_get. destruct (find _ m) as [[k' v']|] eqn:F; [|discriminate].
  simpl. intros [= <-]. apply find_some in F. destruct F as [Hin Hk].
  apply Z.eqb_eq in Hk. simpl in Hk. now subst.
Qed.

Lemma map_get_None (k : Z) (m : JsMap) :
  map_get k m = None -> ~ In k (map_keys m).
Proof.
  unfold map_get, map_keys. intros H Hin.
  apply in_map_iff in Hin. destruct Hin as [e [Hk He]].
  destruct (find _ m) eqn:F; [discriminate|].
  apply (find_none _ _ F) in He. apply Z.eqb_neq in He. contradiction.
Qed.

Lemma map_delete_absent (k : Z) (m : JsMap) :
  ~ In k (map_keys m) -> map_delete k m = m.
Proof.
  unfold map_delete, map_keys.
  induction m as [|e m IH]; simpl; intros H; [reflexivity|].
  destruct (fst e =? k) eqn:E.
  - apply Z.eqb_eq in E. tauto.
  - simpl. f_equal. apply IH. tauto.
Qed.

Lemma map_delete_app (k : Z) (m1 m2 : JsMap) :
  map_delete k (m1 ++ m2) = map_delete k m1 ++ map_delete k m2.
Proof. apply filter_app. Qed.

Lemma map_delete_In (k : Z) (m : JsMap) (e : Z * Transcript) :
  In e (map_delete k m) <-> In e m /\ fst e <> k.
Proof.
  unfold map_delete. rewrite filter_In, negb_true_iff, Z.eqb_neq.
  reflexivity.
Qed.

(** With distinct keys, deleting the key found by [get] removes exactly
    the entry found. *)
Lemma map_delete_found (k : Z) (m : JsMap) (v : Transcript) :
  NoDup (map_keys m) -> map_get k m = Some v ->
  Permutation m ((k, v) :: map_delete k m).
Proof.
  unfold map_get. induction m as [|e m IH]; simpl; [discriminate|].
  intros Hnd Hget. inversion Hnd as [|? ? Hnotin Hnd']; subst.
  destruct (fst e =? k) eqn:E; simpl in *.
  - apply Z.eqb_eq in E. injection Hget as <-.
    destruct e as [k' v']; simpl in *; subst k'.
    fold (map_delete k m). now rewrite map_delete_absent.
  - fold (map_delete k m). rewrite perm_swap. apply perm_skip.
    now apply IH.
Qed.

Lemma wf_buffer_ids (m : JsMap) :
  wf_buffer m -> map sequence_id (map_values m) = map Some (map_keys m).
Proof.
  intros [_ H]. unfold map_values, map_keys.
  induction H as [|e m He _ IH]; simpl; [reflexivity|].
  now rewrite He, IH.
Qed.

Lemma wf_buffer_perm (m m' : JsMap) :
  Permutation m m' -> wf_buffer m -> wf_buffer m'.
Proof.
  intros P [Hnd Hall]. split.
  - eapply Permutation_NoDup; [|exact Hnd].
    unfold map_keys. now apply Permutation_map.
  - eapply Permutation_Forall; eassumption.
Qed.

Lemma wf_buffer_app_r (m1 m2 : JsMap) :
  wf_buffer (m1 ++ m2) -> wf_buffer m2.
Proof.
  intros [Hnd Hall]. split.
  - unfold map_keys in *. rewrite map_app in Hnd.
    now apply NoDup_app_remove_l in Hnd.
  - apply Forall_app in Hall. tauto.
Qed.

(** *** The comparator and the sort *)

Lemma compare_key_le (a b : Transcript) :
  compareTranscripts a b <= 0 <-> key_le a b.
Proof.
  unfold compareTranscripts, key_le.
  destruct (orZero (chunk_start_time a) - orZero (chunk_start_time b) =? 0)
    eqn:E; simpl.
  - apply Z.eqb_eq in E. lia.
  - apply Z.eqb_neq in E. lia.
Qed.

Lemma key_le_total (a b : Transcript) : key_le a b \/ key_le b a.
Proof. unfold key_le. lia. Qed.

Lemma key_le_trans (a b c : Transcript) :
  key_le a b -> key_le b c -> key_le a c.
Proof. unfold key_le. lia. Qed.

Lemma sort_insert_perm (cmp : Transcript -> Transcript -> Z)
      (x : Transcript) (l : list Transcript) :
  Permutation (sort_insert cmp x l) (x :: l).
Proof.
  induction l as [|y l IH]; simpl; [reflexivity|].
  destruct (cmp x y <=? 0); [reflexivity|].
  rewrite IH. apply perm_swap.
Qed.

Lemma array_sort_perm (cmp : Transcript -> Transcript -> Z)
      (l : list Transcript) :
  Permutation (array_sort cmp l) l.
Proof.
  induction l as [|x l IH]; simpl; [reflexivity|].
  rewrite sort_insert_perm. now apply perm_skip.
Qed.

Lemma sort_insert_ordered (x : Transcript) (l : list Transcript) :
  ordered l -> ordered (sort_insert compareTranscripts x l).
Proof.
  unfold ordered. induction l as [|y l IH]; simpl; intros H.
  - constructor; constructor.
  - inversion H as [|? ? Hl Hy]; subst.
    destruct (compareTranscripts x y <=? 0) eqn:E.
    + apply Z.leb_le, compare_key_le in E.
      constructor; [assumption|].
      constructor; [assumption|].
      eapply Forall_impl; [|exact Hy].
      intros z Hz. eapply key_le_trans; eassumption.
    + apply Z.leb_gt in E.
      assert (Hyx : key_le y x).
      { destruct (key_le_total x y) as [Hxy|Hyx]; [|assumption].
        apply compare_key_le in Hxy. lia. }
      constructor; [now apply IH|].
      eapply Permutation_Forall.
      * symmetry. apply sort_insert_perm.
      * now constructor.
Qed.

Lemma array_sort_ordered (l : list Transcript) :
  ordered (array_sort compareTranscripts l).
Proof.
  induction l as [|x l IH]; simpl.
  - constructor.
  - now apply sort_insert_ordered.
Qed.

Lemma sortTranscripts_perm (l : list Transcript) :
  Permutation (sortTranscripts l) l.
Proof. apply array_sort_perm. Qed.

(** *** The sequential loop *)

Lemma map_delete_NoDup (k : Z) (m : JsMap) :
  NoDup (map_keys m) -> NoDup (map_keys (map_delete k m)).
Proof.
  unfold map_keys, map_delete.
  induction m as [|e m IH]; simpl; intros H; [constructor|].
  inversion H as [|? ? Hnotin Hnd]; subst.
  destruct (fst e =? k); simpl; [now apply IH|].
  constructor; [|now apply IH].
  intros Hin. apply Hnotin. apply in_map_iff in Hin.
  destruct Hin as [e' [He' Hin]]. apply filter_In in Hin.
  apply in_map_iff. exists e'. tauto.
Qed.

(** What the loop returns: the entries it drained, in order, leave the
    buffer and extend [sortedTranscripts]; the watermark moves over
    exactly their keys and stops before a key that is absent. *)
Lemma sequentialDrain_spec (m : JsMap) (last : Z) (acc : list Transcript) :
  NoDup (map_keys m) ->
  forall m' last' out,
    sequentialDrain m last acc = (m', last', out) ->
    exists drained,
      out = acc ++ map_values drained
      /\ Permutation m (drained ++ m')
      /\ last <= last'
      /\ (forall s, last < s <= last' -> In s (map_keys drained))
      /\ map_get (last' + 1) m' = None.
Proof.
  funelim (sequentialDrain m last acc).
  - intros Hnd m' last' out Hres.
    match goal with
    | IH : NoDup _ -> _ |- _ =>
        destruct (IH (map_delete_NoDup _ _ Hnd) _ _ _ Hres)
          as [drained [Hout [Hperm [Hle [Hcov Hstop]]]]]
    end.
    exists ((last + 1, bufferedTranscript) :: drained).
    repeat split.
    + rewrite Hout, <- app_assoc. reflexivity.
    + rewrite (map_delete_found _ _ _ Hnd Hget). simpl.
      now apply perm_skip.
    + lia.
    + intros s Hs. simpl.
      destruct (Z.eq_dec s (last + 1)) as [->|Hne]; [now left|].
      right. apply Hcov. lia.
    + assumption.
  - intros Hnd m' last' out [= <- <- <-].
    exists []. simpl. rewrite app_nil_r.
    repeat split; try lia; auto.
Qed.

(** The loop never invents entries. *)
Lemma sequentialDrain_incl (m : JsMap) (last : Z) (acc : list Transcript) :
  forall m' last' out,
    sequentialDrain m last acc = (m', last', out) ->
    incl m' m /\ last <= last'.
Proof.
  funelim (sequentialDrain m last acc).
  - intros m' last' out Hres.
    match goal with
    | IH : forall _ _ _, _ -> _ |- _ =>
        destruct (IH _ _ _ Hres) as [Hincl Hle]
    end.
    split; [|lia].
    intros e He. apply Hincl in He. now apply map_delete_In in He.
  - intros m' last' out [= <- <- <-]. split; [apply incl_refl | lia].
Qed.

Lemma sequentialDrain_nil (last : Z) (acc : list Transcript) :
  sequentialDrain [] last acc = ([], last, acc).
Proof. now simp sequentialDrain. Qed.

(** *** The tier loop *)

Lemma tierStep_tierOf (forceFlush : bool) (now : Z) (acc : Tiers)
      (e : Z * Transcript) :
  tierStep forceFlush now acc e =
  match tierOf forceFlush now (snd e) with
  | Forced =>
      mkTiers (map_delete (fst e) (remaining acc)) (staleTranscripts acc)
              (recentTranscripts acc) (forceFlushTranscripts acc ++ [snd e])
  | Stale =>
      mkTiers (map_delete (fst e) (remaining acc))
              (staleTranscripts acc ++ [snd e])
              (recentTranscripts acc) (forceFlushTranscripts acc)
  | Recent =>
      mkTiers (map_delete (fst e) (remaining acc)) (staleTranscripts acc)
              (recentTranscripts acc ++ [snd e]) (forceFlushTranscripts acc)
  | Kept => acc
  end.
Proof.
  unfold tierStep, tierOf. destruct forceFlush; [reflexivity|].
  destruct (jsGt (jsSub now (idStamp (snd e))) staleThreshold);
    [reflexivity|].
  destruct (jsGe (jsSub now (idStamp (snd e))) recentThreshold);
    reflexivity.
Qed.

Lemma select_cons (f : bool) (now : Z) (tier : Tier) (e : Z * Transcript)
      (m : JsMap) :
  select f now tier (e :: m) =
  if tier_eqb (tierOf f now (snd e)) tier
  then e :: select f now tier m else select f now tier m.
Proof. reflexivity. Qed.

(** The loop, started anywhere: the entries still to visit are the tail of
    the buffer, and those kept so far precede them. *)
Lemma tierLoop_from (f : bool) (now : Z) (l kept : JsMap)
      (S R F : list Transcript) :
  NoDup (map_keys (kept ++ l)) ->
  fold_left (tierStep f now) l (mkTiers (kept ++ l) S R F) =
  mkTiers (kept ++ select f now Kept l)
          (S ++ map_values (select f now Stale l))
          (R ++ map_values (select f now Recent l))
          (F ++ map_values (select f now Forced l)).
Proof.
  revert kept S R F.
  induction l as [|e l IH]; intros kept S R F Hnd; cbn [fold_left].
  - simpl. now rewrite !app_nil_r.
  - assert (Hdel : map_delete (fst e) (kept ++ e :: l) = kept ++ l).
    { unfold map_keys in Hnd. rewrite map_app in Hnd. simpl in Hnd.
      pose proof (NoDup_remove_2 _ _ _ Hnd) as Hnotin.
      rewrite map_delete_app. simpl. rewrite Z.eqb_refl. simpl.
      fold (map_delete (fst e) l).
      rewrite !map_delete_absent; [reflexivity| |];
        intros Hin; apply Hnotin, in_or_app; [right|left]; exact Hin. }
    assert (Hnd' : NoDup (map_keys (kept ++ l))).
    { unfold map_keys in *. rewrite map_app in *. simpl in Hnd.
      eapply NoDup_remove_1; exact Hnd. }
    rewrite tierStep_tierOf, !select_cons. simpl remaining.
    destruct (tierOf f now (snd e)) eqn:T; simpl;
      try (rewrite Hdel, IH by exact Hnd';
           unfold map_values; simpl; rewrite <- ?app_assoc; reflexivity).
    replace (kept ++ e :: l) with ((kept ++ [e]) ++ l)
      by (rewrite <- app_assoc; reflexivity).
    rewrite IH.
    + rewrite <- app_assoc. reflexivity.
    + rewrite <- app_assoc. exact Hnd.
Qed.

Lemma tierLoop_spec (f : bool) (now : Z) (m : JsMap) :
  NoDup (map_keys m) ->
  tierLoop f now m =
  mkTiers (select f now Kept m)
          (map_values (select f now Stale m))
          (map_values (select f now Recent m))
          (map_values (select f now Forced m)).
Proof.
  intros Hnd. unfold tierLoop.
  apply (tierLoop_from f now m [] [] [] []). exact Hnd.
Qed.

(** The four tiers split the buffer. *)
Lemma select_partition (f : bool) (now : Z) (m : JsMap) :
  Permutation m (select f now Recent m ++ select f now Stale m
                   ++ select f now Forced m ++ select f now Kept m).
Proof.
  induction m as [|e m IH]; [reflexivity|].
  rewrite !select_cons. destruct (tierOf f now (snd e)); simpl;
    try (now apply perm_skip);
    rewrite ?app_assoc; apply Permutation_cons_app;
    rewrite <- ?app_assoc; exact IH.
Qed.

(** Whatever the keys, a loop in which every visited entry is drained
    leaves no entry behind. *)
Lemma tierLoop_drains_all (f : bool) (now : Z) (l : JsMap) (acc : Tiers) :
  (forall e, In e l -> tierOf f now (snd e) <> Kept) ->
  remaining (fold_left (tierStep f now) l acc) =
  filter (fun e => negb (existsb (Z.eqb (fst e)) (map_keys l)))
         (remaining acc).
Proof.
  revert acc. induction l as [|e l IH]; intros acc Hall; simpl.
  - induction (remaining acc) as [|x r IHr]; simpl; [reflexivity|].
    now rewrite <- IHr.
  - rewrite IH by (intros x Hx; apply Hall; now right).
    rewrite tierStep_tierOf.
    assert (Hdr : tierOf f now (snd e) <> Kept) by (apply Hall; now left).
    assert (Hflt : forall r,
      filter (fun x => negb (existsb (Z.eqb (fst x)) (map_keys l)))
             (map_delete (fst e) r) =
      filter (fun x => negb ((fst x =? fst e)
                             || existsb (Z.eqb (fst x)) (map_keys l))) r).
    { intros r. unfold map_delete. induction r as [|x r IHr];
        simpl; [reflexivity|].
      destruct (fst x =? fst e); simpl; [exact IHr|].
      now rewrite IHr. }
    destruct (tierOf f now (snd e)); simpl; try apply Hflt.
    contradiction.
Qed.

Lemma filter_all_false {A : Type} (p : A -> bool) (l : list A) :
  (forall x, In x l -> p x = false) -> filter p l = [].
Proof.
  induction l as [|x l IH]; simpl; intros H; [reflexivity|].
  rewrite (H x) by now left. apply IH. intros y Hy. apply H. now right.
Qed.

Lemma tierLoop_empties (f : bool) (now : Z) (m : JsMap) :
  (forall e, In e m -> tierOf f now (snd e) <> Kept) ->
  remaining (tierLoop f now m) = [].
Proof.
  intros Hall. unfold tierLoop. rewrite tierLoop_drains_all by exact Hall.
  simpl. apply filter_all_false. intros e He.
  apply negb_false_iff, existsb_exists. exists (fst e).
  split; [|apply Z.eqb_refl]. unfold map_keys. now apply in_map.
Qed.

Lemma tierOf_forced (now : Z) (t : Transcript) : tierOf true now t = Forced.
Proof. reflexivity. Qed.

(** The tier of an entry in a pass that is not forced, from the reading
    written into its id. *)
Lemma tierOf_cases (now : Z) (t : Transcript) :
  tierOf false now t =
  if (stampWritten t <? 0) || (now <? stampWritten t) then Kept
  else if stampWritten t <? now - 100 then Stale
  else Recent.
Proof.
  unfold tierOf, idStamp, jsSub, jsGt, jsGe, staleThreshold,
    recentThreshold.
  destruct (stampWritten t <? 0) eqn:E0; simpl; [reflexivity|].
  destruct (now - stampWritten t >? 100) eqn:E1;
    destruct (now - stampWritten t >=? 0) eqn:E2;
    destruct (now <? stampWritten t) eqn:E3;
    destruct (stampWritten t <? now - 100) eqn:E4;
    try reflexivity;
    rewrite ?Z.gtb_ltb, ?Z.geb_leb in *; lia.
Qed.

Lemma tierOf_not_kept (now : Z) (t : Transcript) :
  0 <= stampWritten t <= now -> tierOf false now t <> Kept.
Proof.
  intros H. rewrite tierOf_cases.
  destruct (stampWritten t <? 0) eqn:E0; [lia|].
  destruct (now <? stampWritten t) eqn:E1; [lia|]. simpl.
  destruct (stampWritten t <? now - 100); discriminate.
Qed.

(** *** The updater of the emitted output *)

Lemma set_has_definedIds (s : Z) (prev : list Transcript) :
  set_has s (definedIds prev) = true <-> In (Some s) (map sequence_id prev).
Proof.
  unfold set_has. rewrite existsb_exists.
  induction prev as [|t prev IH]; simpl.
  - split; [intros [x [[] _]] | intros []].
  - destruct (sequence_id t) as [s'|]; simpl.
    + split.
      * intros [x [[<-|Hin] Hx]].
        -- apply Z.eqb_eq in Hx. left. now subst.
        -- right. apply IH. now exists x.
      * intros [[= ->]|Hin].
        -- exists s. split; [now left | apply Z.eqb_refl].
        -- apply IH in Hin. destruct Hin as [x [Hin Hx]].
           exists x. split; [now right | assumption].
    + rewrite IH. split; [tauto | intros [H|H]; [discriminate | assumption]].
Qed.

Lemma uniqueNew_In (allNew prev : list Transcript) (t : Transcript) :
  In t (uniqueNewTranscripts allNew prev) <->
  In t allNew
  /\ exists s, sequence_id t = Some s
               /\ ~ In (Some s) (map sequence_id prev).
Proof.
  unfold uniqueNewTranscripts. rewrite filter_In.
  split; intros [Hin H]; split; try assumption.
  - destruct (sequence_id t) as [s|]; [|discriminate].
    exists s. split; [reflexivity|].
    rewrite <- set_has_definedIds. apply negb_true_iff in H. now rewrite H.
  - destruct H as [s [-> Hnot]]. apply negb_true_iff.
    rewrite <- set_has_definedIds in Hnot.
    now destruct (set_has s (definedIds prev)).
Qed.

Lemma mergeTranscripts_perm (allNew prev : list Transcript) :
  Permutation (mergeTranscripts allNew prev)
              (prev ++ uniqueNewTranscripts allNew prev).
Proof.
  unfold mergeTranscripts.
  destruct (uniqueNewTranscripts allNew prev) as [|t u]; simpl.
  - now rewrite app_nil_r.
  - apply array_sort_perm.
Qed.

Lemma mergeTranscripts_nil (prev : list Transcript) :
  mergeTranscripts [] prev = prev.
Proof. reflexivity. Qed.

Lemma mergeTranscripts_ordered (allNew prev : list Transcript) :
  ordered prev -> ordered (mergeTranscripts allNew prev).
Proof.
  intros H. unfold mergeTranscripts.
  destruct (_ =? 0); [assumption | apply array_sort_ordered].
Qed.

Lemma mergeTranscripts_keeps (allNew prev : list Transcript) (t : Transcript) :
  In t prev -> In t (mergeTranscripts allNew prev).
Proof.
  intros H. eapply Permutation_in.
  - symmetry. apply mergeTranscripts_perm.
  - apply in_or_app. now left.
Qed.

Lemma mergeTranscripts_from (allNew prev : list Transcript) (t : Transcript) :
  In t (mergeTranscripts allNew prev) ->
  In t prev
  \/ (In t allNew /\ ~ In (sequence_id t) (map sequence_id prev)).
Proof.
  intros H. apply (Permutation_in _ (mergeTranscripts_perm _ _)) in H.
  apply in_app_or in H. destruct H as [H|H]; [now left|right].
  apply uniqueNew_In in H. destruct H as [Hin [s [Hs Hnot]]].
  rewrite Hs. now split.
Qed.

(** Filtering transcripts keeps their sequence ids distinct. *)
Lemma filter_keeps_ids_distinct (keep : Transcript -> bool)
      (ts : list Transcript) :
  NoDup (map sequence_id ts) -> NoDup (map sequence_id (filter keep ts)).
Proof.
  induction ts as [|t ts IH]; simpl; [constructor|].
  rewrite NoDup_cons_iff. intros [Hfresh Hrest].
  destruct (keep t); simpl; [|now apply IH].
  apply NoDup_cons; [|now apply IH].
  rewrite in_map_iff. intros [t' [Hid Hin]].
  apply Hfresh. rewrite <- Hid. apply in_map.
  apply filter_In in Hin. tauto.
Qed.

Lemma NoDup_app_disjoint {A : Type} (l1 l2 : list A) :
  NoDup l1 -> NoDup l2 -> (forall x, In x l1 -> ~ In x l2) ->
  NoDup (l1 ++ l2).
Proof.
  induction l1 as [|x l1 IH]; simpl; intros H1 H2 Hd; [assumption|].
  inversion H1 as [|? ? Hnotin Hnd]; subst.
  constructor.
  - intros Hin. apply in_app_or in Hin. destruct Hin as [Hin|Hin].
    + contradiction.
    + apply (Hd x); [now left | assumption].
  - apply IH; try assumption. intros y Hy. apply Hd. now right.
Qed.

Lemma mergeTranscripts_unique (allNew prev : list Transcript) :
  NoDup (map sequence_id prev) -> NoDup (map sequence_id allNew) ->
  NoDup (map sequence_id (mergeTranscripts allNew prev)).
Proof.
  intros Hprev Hnew.
  eapply Permutation_NoDup.
  - symmetry. apply Permutation_map. apply mergeTranscripts_perm.
  - rewrite map_app. apply NoDup_app_disjoint.
    + exact Hprev.
    + unfold uniqueNewTranscripts. now apply filter_keeps_ids_distinct.
    + intros x Hx Hx'. apply in_map_iff in Hx'.
      destruct Hx' as [t [<- Ht]]. apply uniqueNew_In in Ht.
      destruct Ht as [_ [s [Hs Hnot]]]. rewrite Hs in Hx. contradiction.
Qed.

(** A new transcript with a defined id is in the output after the update,
    as itself or as the entry that already had its id. *)
Lemma mergeTranscripts_covers (allNew prev : list Transcript)
      (t : Transcript) (s : Z) :
  In t allNew -> sequence_id t = Some s ->
  In (Some s) (map sequence_id (mergeTranscripts allNew prev)).
Proof.
  intros Hin Hs.
  destruct (in_dec id_eq_dec (Some s) (map sequence_id prev)) as [Hold|Hnew].
  - apply in_map_iff in Hold. destruct Hold as [t0 [H0 Hin0]].
    apply in_map_iff. exists t0. split; [assumption|].
    now apply mergeTranscripts_keeps.
  - apply in_map_iff. exists t. split; [assumption|].
    eapply Permutation_in.
    + symmetry. apply mergeTranscripts_perm.
    + apply in_or_app. right. apply uniqueNew_In. split; [assumption|].
      now exists s.
Qed.

(** *** One reduction pass *)

Lemma pass_transcripts (f : bool) (now : Z) (st : State) :
  transcripts (processBufferedTranscripts f now st) =
  mergeTranscripts (allNewTranscripts f now st) (transcripts st).
Proof.
  unfold processBufferedTranscripts, allNewTranscripts, reductionPass.
  destruct (sequentialDrain _ _ _) as [[m1 last1] out]. simpl.
  destruct (out ++ _); reflexivity.
Qed.

Lemma pass_counter (f : bool) (now : Z) (st : State) :
  transcriptCounter (processBufferedTranscripts f now st) =
  transcriptCounter st.
Proof.
  unfold processBufferedTranscripts, reductionPass.
  now destruct (sequentialDrain _ _ _) as [[m1 last1] out].
Qed.

(** A pass splits the buffer into the entries it drains, whose transcripts
    make up the batch, and the entries it leaves; the watermark moves over
    drained keys only. *)
Lemma pass_split (f : bool) (now : Z) (st : State) :
  wf_buffer (transcriptBuffer st) ->
  exists drained,
    Permutation (transcriptBuffer st)
                (drained
                   ++ transcriptBuffer (processBufferedTranscripts f now st))
    /\ Permutation (map_values drained) (allNewTranscripts f now st)
    /\ lastProcessedSequence st
       <= lastProcessedSequence (processBufferedTranscripts f now st)
    /\ (forall s,
          lastProcessedSequence st < s
          <= lastProcessedSequence (processBufferedTranscripts f now st) ->
          In s (map_keys drained)).
Proof.
  intros [Hnd _].
  unfold processBufferedTranscripts, allNewTranscripts, reductionPass.
  destruct (sequentialDrain _ _ _) as [[m1 last1] out] eqn:Hd.
  apply sequentialDrain_spec in Hd; [|exact Hnd].
  destruct Hd as [seq [Hout [Hperm [Hle [Hcov _]]]]].
  assert (Hnd1 : NoDup (map_keys m1)).
  { assert (H : NoDup (map_keys (seq ++ m1))).
    { eapply Permutation_NoDup; [|exact Hnd].
      unfold map_keys. now apply Permutation_map. }
    unfold map_keys in *. rewrite map_app in H.
    now apply NoDup_app_remove_l in H. }
  rewrite (tierLoop_spec f now m1 Hnd1). simpl in *. subst out.
  exists (seq ++ select f now Recent m1 ++ select f now Stale m1
              ++ select f now Forced m1).
  repeat split.
  - rewrite Hperm, <- !app_assoc. apply Permutation_app_head.
    apply select_partition.
  - unfold map_values. rewrite !map_app. apply Permutation_app_head.
    unfold sortTranscripts.
    repeat (apply Permutation_app;
            [symmetry; apply array_sort_perm|]).
    symmetry. apply array_sort_perm.
  - exact Hle.
  - intros s Hs. unfold map_keys. rewrite map_app. apply in_or_app.
    left. now apply Hcov.
Qed.

Lemma wf_buffer_app_l (m1 m2 : JsMap) :
  wf_buffer (m1 ++ m2) -> wf_buffer m1.
Proof.
  intros H. apply wf_buffer_app_r with (m1 := m2).
  eapply wf_buffer_perm; [|exact H]. apply Permutation_app_comm.
Qed.

Lemma Some_injective_NoDup (l : list Z) :
  NoDup l -> NoDup (map (@Some Z) l).
Proof.
  induction 1 as [|x l Hnotin _ IH]; simpl; constructor; [|assumption].
  intros Hin. apply in_map_iff in Hin.
  destruct Hin as [y [[= ->] Hy]]. contradiction.
Qed.

(** The batch of a pass holds each sequence id at most once. *)
Lemma pass_batch_unique (f : bool) (now : Z) (st : State) :
  wf_buffer (transcriptBuffer st) ->
  NoDup (map sequence_id (allNewTranscripts f now st)).
Proof.
  intros Hwf. destruct (pass_split f now st Hwf) as [D [Hperm [Hval _]]].
  eapply Permutation_NoDup; [apply Permutation_map; exact Hval|].
  assert (HD : wf_buffer D).
  { eapply wf_buffer_app_l, wf_buffer_perm; eassumption. }
  rewrite (wf_buffer_ids D HD). apply Some_injective_NoDup, HD.
Qed.

(** Every transcript of the batch was buffered under its sequence id. *)
Lemma pass_batch_buffered (f : bool) (now : Z) (st : State) (t : Transcript) :
  wf_buffer (transcriptBuffer st) ->
  In t (allNewTranscripts f now st) ->
  exists s, sequence_id t = Some s /\ In (s, t) (transcriptBuffer st).
Proof.
  intros Hwf Hin. destruct (pass_split f now st Hwf) as [D [Hperm [Hval _]]].
  apply (Permutation_in _ (Permutation_sym Hval)) in Hin.
  unfold map_values in Hin. apply in_map_iff in Hin.
  destruct Hin as [[k t'] [Ht Hin]]. simpl in Ht. subst t'.
  assert (HinB : In (k, t) (transcriptBuffer st)).
  { eapply Permutation_in; [symmetry; exact Hperm|].
    apply in_or_app. now left. }
  exists k. split; [|assumption].
  destruct Hwf as [_ Hall]. rewrite Forall_forall in Hall.
  exact (Hall _ HinB).
Qed.

(** A buffered entry is, after the pass, either in the batch or still
    buffered. *)
Lemma pass_buffered_cases (f : bool) (now : Z) (st : State)
      (e : Z * Transcript) :
  wf_buffer (transcriptBuffer st) ->
  In e (transcriptBuffer st) ->
  In (snd e) (allNewTranscripts f now st)
  \/ In e (transcriptBuffer (processBufferedTranscripts f now st)).
Proof.
  intros Hwf Hin. destruct (pass_split f now st Hwf) as [D [Hperm [Hval _]]].
  apply (Permutation_in _ Hperm) in Hin. apply in_app_or in Hin.
  destruct Hin as [Hin|Hin]; [left|now right].
  eapply Permutation_in; [exact Hval|]. unfold map_values. now apply in_map.
Qed.

Lemma pass_buffer_incl (f : bool) (now : Z) (st : State) :
  wf_buffer (transcriptBuffer st) ->
  incl (transcriptBuffer (processBufferedTranscripts f now st))
       (transcriptBuffer st).
Proof.
  intros Hwf e He. destruct (pass_split f now st Hwf) as [D [Hperm _]].
  eapply Permutation_in; [symmetry; exact Hperm|]. apply in_or_app.
  now right.
Qed.

(** An entry that a pass leaves in the buffer was visited by the [for]
    loop and fell in no tier. *)
Lemma pass_retained_kept (f : bool) (now : Z) (st : State)
      (e : Z * Transcript) :
  wf_buffer (transcriptBuffer st) ->
  In e (transcriptBuffer (processBufferedTranscripts f now st)) ->
  tierOf f now (snd e) = Kept.
Proof.
  intros [Hnd _]. unfold processBufferedTranscripts, reductionPass.
  destruct (sequentialDrain _ _ _) as [[m1 last1] out] eqn:Hd.
  apply sequentialDrain_spec in Hd; [|exact Hnd].
  destruct Hd as [seq [_ [Hperm _]]].
  assert (Hnd1 : NoDup (map_keys m1)).
  { assert (H : NoDup (map_keys (seq ++ m1))).
    { eapply Permutation_NoDup; [|exact Hnd].
      unfold map_keys. now apply Permutation_map. }
    unfold map_keys in *. rewrite map_app in H.
    now apply NoDup_app_remove_l in H. }
  rewrite (tierLoop_spec f now m1 Hnd1). simpl.
  unfold select. rewrite filter_In. intros [_ H].
  destruct (tierOf f now (snd e)); try discriminate. reflexivity.
Qed.

Lemma pass_invariant (f : bool) (now : Z) (st : State) :
  invariant st -> invariant (processBufferedTranscripts f now st).
Proof.
  intros [Hwf Hord Huniq Hwm].
  destruct (pass_split f now st Hwf) as [D [Hperm [Hval [Hle Hcov]]]].
  constructor.
  - eapply wf_buffer_app_r, wf_buffer_perm; eassumption.
  - rewrite pass_transcripts. now apply mergeTranscripts_ordered.
  - unfold emittedIds. rewrite pass_transcripts.
    apply mergeTranscripts_unique; [exact Huniq|].
    now apply pass_batch_unique.
  - intros s Hs. unfold emittedIds. rewrite pass_transcripts.
    destruct (Z_le_gt_dec s (lastProcessedSequence st)) as [Hold|Hnew].
    + assert (H : In (Some s) (emittedIds st)) by (apply Hwm; lia).
      unfold emittedIds in H. apply in_map_iff in H.
      destruct H as [t [Ht Hin]]. apply in_map_iff. exists t.
      split; [assumption | now apply mergeTranscripts_keeps].
    + assert (H : In s (map_keys D)) by (apply Hcov; lia).
      unfold map_keys in H. apply in_map_iff in H.
      destruct H as [[k t] [Hk Hin]]. simpl in Hk. subst k.
      assert (HD : wf_buffer D).
      { eapply wf_buffer_app_l, wf_buffer_perm; eassumption. }
      destruct HD as [_ HallD]. rewrite Forall_forall in HallD.
      apply (mergeTranscripts_covers _ _ t).
      * eapply Permutation_in; [exact Hval|].
        unfold map_values. now apply (in_map snd) in Hin.
      * exact (HallD _ Hin).
Qed.

(** *** One arrival *)

Lemma map_set_fresh (k : Z) (v : Transcript) (m : JsMap) :
  map_has k m = false -> map_set k v m = m ++ [(k, v)].
Proof. unfold map_set. now intros ->. Qed.

Lemma arrive_invariant (payload : TranscriptUpdate.t) (now : Z) (st : State) :
  invariant st -> invariant (onTranscriptUpdate payload now st).
Proof.
  intros [Hwf Hord Huniq Hwm]. unfold onTranscriptUpdate.
  destruct (map_has _ _) eqn:Hhas; [now constructor|].
  constructor; simpl; try assumption.
  rewrite map_set_fresh by exact Hhas.
  destruct Hwf as [Hnd Hall]. split.
  - unfold map_keys in *. rewrite map_app. simpl.
    apply NoDup_app_disjoint; [assumption | repeat constructor; intros [] |].
    intros x Hx [<-|[]].
    apply map_has_In in Hx. unfold map_keys in Hx. congruence.
  - apply Forall_app. split; [assumption|]. now repeat constructor.
Qed.

Lemma step_invariant (st : State) (e : Event) :
  invariant st -> invariant (step st e).
Proof.
  destruct e; simpl; [apply arrive_invariant | apply pass_invariant].
Qed.

(** *** Runs *)

Lemma run_snoc (es : list Event) (e : Event) (st : State) :
  run (es ++ [e]) st = step (run es st) e.
Proof. unfold run. now rewrite fold_left_app. Qed.

Lemma run_app (es1 es2 : list Event) (st : State) :
  run (es1 ++ es2) st = run es2 (run es1 st).
Proof. unfold run. now rewrite fold_left_app. Qed.

Lemma arrivedIds_app (es1 es2 : list Event) :
  arrivedIds (es1 ++ es2) = arrivedIds es1 ++ arrivedIds es2.
Proof.
  induction es1 as [|[p n|f n] es1 IH]; simpl; now rewrite ?IH.
Qed.

Lemma initial_invariant : invariant initial.
Proof.
  constructor; simpl.
  - split; constructor.
  - constructor.
  - constructor.
  - intros s Hs. lia.
Qed.

Lemma run_invariant (es : list Event) (st : State) :
  invariant st -> invariant (run es st).
Proof.
  revert st. induction es as [|e es IH]; intros st H; [assumption|].
  apply IH. now apply step_invariant.
Qed.

Lemma step_accounted (es : list Event) (st : State) (e : Event) :
  invariant st -> accounted es st -> accounted (es ++ [e]) (step st e).
Proof.
  intros Hinv [Harr Hemit Hbuf].
  destruct e as [payload now | f now]; simpl.
  - (* an arrival *)
    unfold onTranscriptUpdate.
    destruct (map_has _ _) eqn:Hhas.
    + apply map_has_In in Hhas.
      constructor; rewrite arrivedIds_app; simpl.
      * intros s Hs. apply in_app_or in Hs.
        destruct Hs as [Hs|[<-|[]]]; [now apply Harr | now right].
      * intros x Hx. destruct (Hemit x Hx) as [s [-> Hs]].
        exists s. split; [reflexivity | apply in_or_app; now left].
      * intros s Hs. apply in_or_app. left. now apply Hbuf.
    + rewrite map_set_fresh by exact Hhas.
      constructor; rewrite arrivedIds_app;
        unfold emittedIds, map_keys in *; simpl.
      * intros s Hs. rewrite map_app, in_app_iff. simpl.
        apply in_app_or in Hs. destruct Hs as [Hs|[<-|[]]]; [|tauto].
        destruct (Harr s Hs); tauto.
      * intros x Hx. destruct (Hemit x Hx) as [s [-> Hs]].
        exists s. split; [reflexivity | apply in_or_app; now left].
      * intros s Hs. rewrite map_app, in_app_iff in Hs. simpl in Hs.
        apply in_or_app. destruct Hs as [Hs|[<-|[]]];
          [left; now apply Hbuf | right; now left].
  - (* a pass *)
    pose proof (inv_buffer st Hinv) as Hwf.
    constructor; rewrite arrivedIds_app; simpl; rewrite app_nil_r.
    + intros s Hs. destruct (Harr s Hs) as [Hs'|Hs'].
      * left. unfold emittedIds in *. rewrite pass_transcripts.
        apply in_map_iff in Hs'. destruct Hs' as [t [Ht Hin]].
        apply in_map_iff. exists t.
        split; [assumption | now apply mergeTranscripts_keeps].
      * unfold map_keys in Hs'. apply in_map_iff in Hs'.
        destruct Hs' as [[k t] [Hk Hin]]. simpl in Hk. subst k.
        destruct (pass_buffered_cases f now st _ Hwf Hin) as [Hb|Hb].
        -- left. unfold emittedIds. rewrite pass_transcripts.
           apply (mergeTranscripts_covers _ _ t); [exact Hb|].
           destruct Hwf as [_ Hall]. rewrite Forall_forall in Hall.
           exact (Hall _ Hin).
        -- right. unfold map_keys. now apply (in_map fst) in Hb.
    + intros x Hx. unfold emittedIds in Hx. rewrite pass_transcripts in Hx.
      apply in_map_iff in Hx. destruct Hx as [t [<- Hin]].
      apply mergeTranscripts_from in Hin. destruct Hin as [Hin|[Hin _]].
      * apply Hemit. unfold emittedIds. now apply in_map.
      * destruct (pass_batch_buffered f now st t Hwf Hin) as [s [Hs HinB]].
        exists s. split; [assumption|]. apply Hbuf.
        unfold map_keys. now apply (in_map fst) in HinB.
    + intros s Hs. apply Hbuf. unfold map_keys in *.
      apply in_map_iff in Hs. destruct Hs as [e [He Hin]].
      apply in_map_iff. exists e. split; [assumption|].
      now apply (pass_buffer_incl f now st Hwf).
Qed.

Lemma reachable_sound (es : list Event) :
  invariant (run es initial) /\ accounted es (run es initial).
Proof.
  induction es as [|e es [Hinv Hacc]] using rev_ind.
  - split; [apply initial_invariant|].
    constructor; simpl; intros ? [].
  - rewrite run_snoc. split.
    + now apply step_invariant.
    + now apply step_accounted.
Qed.

(** Entries of the output stay in the output. *)
Lemma step_keeps (st : State) (e : Event) (t : Transcript) :
  In t (transcripts st) -> In t (transcripts (step st e)).
Proof.
  destruct e as [payload now | f now]; simpl; intros H.
  - unfold onTranscriptUpdate. now destruct (map_has _ _).
  - rewrite pass_transcripts. now apply mergeTranscripts_keeps.
Qed.

Lemma run_keeps (es : list Event) (st : State) (t : Transcript) :
  In t (transcripts st) -> In t (transcripts (run es st)).
Proof.
  revert st. induction es as [|e es IH]; intros st H; [assumption|].
  apply IH. now apply step_keeps.
Qed.

(** The watermark never moves back. *)
Lemma step_watermark (st : State) (e : Event) :
  lastProcessedSequence st <= lastProcessedSequence (step st e).
Proof.
  destruct e as [payload now | f now]; simpl.
  - unfold onTranscriptUpdate. destruct (map_has _ _); simpl; lia.
  - unfold processBufferedTranscripts, reductionPass.
    destruct (sequentialDrain _ _ _) as [[m1 last1] out] eqn:Hd.
    apply sequentialDrain_incl in Hd. simpl. tauto.
Qed.

Lemma run_watermark (es : list Event) (st : State) :
  lastProcessedSequence st <= lastProcessedSequence (run es st).
Proof.
  revert st. induction es as [|e es IH]; intros st.
  - simpl. lia.
  - change (run (e :: es) st) with (run es (step st e)).
    etransitivity; [apply (step_watermark st e) | apply IH].
Qed.

Lemma unique_occurrences (st : State) (s : Z) :
  NoDup (emittedIds st) -> In (Some s) (emittedIds st) ->
  occurrences s st = 1%nat.
Proof.
  intros Hnd Hin. unfold occurrences.
  now apply (proj1 (NoDup_count_occ' id_eq_dec _) Hnd).
Qed.

(** A pass in which no visited entry is kept leaves the buffer empty. *)
Lemma pass_empties (f : bool) (now : Z) (st : State) :
  (forall e, In e (transcriptBuffer st) -> tierOf f now (snd e) <> Kept) ->
  transcriptBuffer (processBufferedTranscripts f now st) = [].
Proof.
  intros Hall. unfold processBufferedTranscripts, reductionPass.
  destruct (sequentialDrain _ _ _) as [[m1 last1] out] eqn:Hd. simpl.
  apply sequentialDrain_incl in Hd. destruct Hd as [Hincl _].
  apply tierLoop_empties. intros e He. apply Hall, Hincl, He.
Qed.

Lemma pass_on_empty (f : bool) (now : Z) (st : State) :
  transcriptBuffer st = [] ->
  allNewTranscripts f now st = []
  /\ processBufferedTranscripts f now st = st.
Proof.
  destruct st as [c b l ts]. simpl. intros ->.
  unfold processBufferedTranscripts, allNewTranscripts, reductionPass.
  simpl. rewrite sequentialDrain_nil. split; reflexivity.
Qed.

(** Two output entries with the same sequence id are the same entry when
    ids are distinct. *)
Lemma same_id_same_entry (ts : list Transcript) (t1 t2 : Transcript) :
  NoDup (map sequence_id ts) -> In t1 ts -> In t2 ts ->
  sequence_id t1 = sequence_id t2 -> t1 = t2.
Proof.
  induction ts as [|t ts IH]; simpl; [tauto|].
  rewrite NoDup_cons_iff. intros [Hfresh Hrest] [<-|H1] [<-|H2] Hid;
    try reflexivity.
  - exfalso. apply Hfresh. rewrite Hid. now apply in_map.
  - exfalso. apply Hfresh. rewrite <- Hid. now apply in_map.
  - now apply IH.
Qed.

(** Every buffered entry carries the clock reading of an arrival of the
    run. *)
Lemma buffered_stamp_arrived (es : list Event) (e : Z * Transcript) :
  In e (transcriptBuffer (run es initial)) ->
  exists payload, In (Arrive payload (stampWritten (snd e))) es.
Proof.
  revert e. induction es as [|ev es IH] using rev_ind; intros e He.
  - destruct He.
  - rewrite run_snoc in He.
    assert (Hold : In e (transcriptBuffer (run es initial)) ->
                   exists payload,
                     In (Arrive payload (stampWritten (snd e)))
                        (es ++ [ev])).
    { intros H. destruct (IH e H) as [p Hp]. exists p.
      apply in_or_app. now left. }
    destruct ev as [payload now | f now]; simpl in He.
    + unfold onTranscriptUpdate in He.
      destruct (map_has _ _) eqn:Hhas; [now apply Hold|].
      simpl in He. rewrite map_set_fresh in He by exact Hhas.
      apply in_app_or in He. destruct He as [He|[<-|[]]]; [now apply Hold|].
      exists payload. apply in_or_app. right. now left.
    + apply Hold. destruct (reachable_sound es) as [Hinv _].
      now apply (pass_buffer_incl f now _ (inv_buffer _ Hinv)).
Qed.

(** *** The claims on the reconciler *)

(** C1: whatever the run (arrivals in any order, duplicates, passes of any
    kind at any clock reading), the emitted transcripts are in ascending
    [(chunk_start_time, sequence_id)] order and no sequence id occurs twice;
    a delivered id is in the output exactly once unless it still waits in
    the buffer, the output holds delivered ids only, and after the forced
    flush that ends a session the output holds exactly the delivered ids,
    each once, in order. *)
Theorem emitted_transcript_sorted_and_unique (es : list Event) :
  let st := run es initial in
  ordered (transcripts st)
  /\ (forall x, (count_occ id_eq_dec (emittedIds st) x <= 1)%nat)
  /\ (forall s, In s (arrivedIds es) ->
        occurrences s st = 1%nat
        \/ In s (map_keys (transcriptBuffer st)))
  /\ (forall x, In x (emittedIds st) ->
        exists s, x = Some s /\ In s (arrivedIds es))
  /\ (forall now,
        let final := processBufferedTranscripts true now st in
        ordered (transcripts final)
        /\ forall s, In s (arrivedIds es) <-> occurrences s final = 1%nat).
Proof.
  intros st. destruct (reachable_sound es) as [Hinv Hacc]. fold st in Hinv, Hacc.
  split; [apply Hinv|].
  split; [apply NoDup_count_occ, Hinv|].
  split.
  { intros s Hs. destruct (acc_arrived _ _ Hacc s Hs) as [H|H];
      [left; apply unique_occurrences; [apply Hinv | exact H] | now right]. }
  split; [apply Hacc|].
  intros now final.
  destruct (reachable_sound (es ++ [Pass true now])) as [Hinv' Hacc'].
  rewrite run_snoc in Hinv', Hacc'. simpl in Hinv', Hacc'.
  fold st in Hinv', Hacc'. fold final in Hinv', Hacc'.
  assert (Hempty : transcriptBuffer final = []).
  { apply pass_empties. intros e _. rewrite tierOf_forced. discriminate. }
  assert (Hids : arrivedIds (es ++ [Pass true now]) = arrivedIds es).
  { rewrite arrivedIds_app. simpl. apply app_nil_r. }
  split; [apply Hinv'|].
  intros s. split.
  - intros Hs. apply unique_occurrences; [apply Hinv'|].
    destruct (acc_arrived _ _ Hacc' s) as [H|H]; [now rewrite Hids | exact H|].
    rewrite Hempty in H. destruct H.
  - intros Hocc. assert (Hin : In (Some s) (emittedIds final)).
    { apply (count_occ_In id_eq_dec). unfold occurrences in Hocc.
      rewrite Hocc. apply Nat.lt_0_1. }
    destruct (acc_emitted _ _ Hacc' _ Hin) as [s' [[= <-] Hs']].
    now rewrite Hids in Hs'.
Qed.

(** C3: once a sequence id is in the output, delivering a segment with that
    id again, whatever follows, leaves the id in the output exactly once;
    every entry of the output is still there, and the entry that carries
    the id is the one that was there before. *)
Theorem redelivery_never_reemits (es1 es2 : list Event)
        (payload : TranscriptUpdate.t) (now : Z) :
  let s := TranscriptUpdate.sequence_id payload in
  let before := run es1 initial in
  let after := run (es1 ++ Arrive payload now :: es2) initial in
  In (Some s) (emittedIds before) ->
  occurrences s after = 1%nat
  /\ (forall t, In t (transcripts before) -> In t (transcripts after))
  /\ (forall t, In t (transcripts after) -> sequence_id t = Some s ->
                In t (transcripts before)).
Proof.
  intros s before after Hin.
  destruct (reachable_sound (es1 ++ Arrive payload now :: es2))
    as [Hinv _]. fold after in Hinv.
  assert (Hkeep : forall t, In t (transcripts before) ->
                            In t (transcripts after)).
  { intros t Ht. unfold after. rewrite run_app. now apply run_keeps. }
  unfold emittedIds in Hin. apply in_map_iff in Hin.
  destruct Hin as [t0 [Hs0 Hin0]].
  repeat split.
  - apply unique_occurrences; [apply Hinv|].
    unfold emittedIds. apply in_map_iff. exists t0. split; auto.
  - exact Hkeep.
  - intros t Ht Hs.
    assert (t = t0) as ->; [|exact Hin0].
    apply (same_id_same_entry (transcripts after));
      [apply Hinv | exact Ht | now apply Hkeep | congruence].
Qed.

(** C8, as amended: after every arrival and every pass, each sequence id
    between 1 and the watermark is in the output exactly once, no id is in
    the output twice, the buffer holds each id at most once and only
    delivered ones, a pass adds to the output only entries whose id was not
    there (so a buffered copy of an emitted segment is dropped when it is
    drained), and the next arrival or pass does not lower the watermark. *)
Theorem watermark_invariant (es : list Event) (e : Event) :
  let st := run es initial in
  (forall s, 0 < s <= lastProcessedSequence st -> occurrences s st = 1%nat)
  /\ (forall x, (count_occ id_eq_dec (emittedIds st) x <= 1)%nat)
  /\ NoDup (map_keys (transcriptBuffer st))
  /\ (forall s, In s (map_keys (transcriptBuffer st)) ->
                In s (arrivedIds es))
  /\ (forall f now t,
        In t (transcripts (processBufferedTranscripts f now st)) ->
        In t (transcripts st)
        \/ ~ In (sequence_id t) (emittedIds st))
  /\ lastProcessedSequence st <= lastProcessedSequence (step st e).
Proof.
  intros st. destruct (reachable_sound es) as [Hinv Hacc].
  fold st in Hinv, Hacc.
  split.
  { intros s Hs. apply unique_occurrences; [apply Hinv|].
    now apply (inv_watermark _ Hinv). }
  split; [apply NoDup_count_occ, Hinv|].
  split; [apply (inv_buffer _ Hinv)|].
  split; [apply Hacc|].
  split; [|apply step_watermark].
  intros f now t Ht. rewrite pass_transcripts in Ht.
  apply mergeTranscripts_from in Ht. tauto.
Qed.

(** C9: a forced flush right after a forced flush hands no transcript to
    the updater and returns the state it was given: buffer, watermark and
    output are those the first flush left. *)
Theorem forced_flush_idempotent (st : State) (now1 now2 : Z) :
  let flushed := processBufferedTranscripts true now1 st in
  allNewTranscripts true now2 flushed = []
  /\ processBufferedTranscripts true now2 flushed = flushed.
Proof.
  intros flushed. apply pass_on_empty. apply pass_empties.
  intros e _. rewrite tierOf_forced. discriminate.
Qed.

(** C10, as amended: a forced pass leaves the buffer empty; an entry that a
    pass leaves in the buffer was buffered before it, the pass is not
    forced, and the clock reading in the entry's id is later than the one
    the pass takes, or negative; so a pass, forced or not, whose clock
    reading is not earlier than the readings of the arrivals of the run,
    none of them negative, leaves the buffer empty: no buffered entry is
    kept (in a pass that is not forced it falls in the stale tier when older
    than 100 ms and in the recent tier otherwise), and every entry that was
    buffered is in the batch of that pass. *)
Theorem every_pass_empties_buffer (es : list Event) (f : bool) (now : Z) :
  let st := run es initial in
  let after := processBufferedTranscripts f now st in
  (f = true -> transcriptBuffer after = [])
  /\ (forall e, In e (transcriptBuffer after) ->
        In e (transcriptBuffer st)
        /\ f = false
        /\ (stampWritten (snd e) < 0 \/ now < stampWritten (snd e)))
  /\ ((forall payload n, In (Arrive payload n) es -> 0 <= n <= now) ->
      transcriptBuffer after = []
      /\ (forall e, In e (transcriptBuffer st) ->
            tierOf f now (snd e) =
            if f then Forced
            else if now - stampWritten (snd e) >? staleThreshold then Stale
                 else Recent)
      /\ (forall e, In e (transcriptBuffer st) ->
                    In (snd e) (allNewTranscripts f now st))).
Proof.
  intros st after.
  destruct (reachable_sound es) as [Hinv _]. fold st in Hinv.
  split; [|split].
  - intros ->. apply pass_empties. intros e _. rewrite tierOf_forced.
    discriminate.
  - intros e He.
    pose proof (pass_retained_kept f now st e (inv_buffer _ Hinv) He) as Hk.
    split; [now apply (pass_buffer_incl f now st (inv_buffer _ Hinv))|].
    destruct f; [rewrite tierOf_forced in Hk; discriminate|].
    split; [reflexivity|]. rewrite tierOf_cases in Hk.
    destruct (stampWritten (snd e) <? 0) eqn:E0; [lia|].
    destruct (now <? stampWritten (snd e)) eqn:E1; [lia|].
    simpl in Hk. destruct (stampWritten (snd e) <? now - 100);
      discriminate.
  - intros Hclock.
    assert (Hage : forall e, In e (transcriptBuffer st) ->
                             0 <= stampWritten (snd e) <= now).
    { intros e He. destruct (buffered_stamp_arrived es e He) as [p Hp].
      exact (Hclock _ _ Hp). }
    assert (Hempty : transcriptBuffer after = []).
    { apply pass_empties. intros e He.
      destruct f; [rewrite tierOf_forced; discriminate|].
      apply tierOf_not_kept, Hage, He. }
    split; [exact Hempty|]. split.
    + intros e He. destruct f; [reflexivity|].
      pose proof (Hage e He) as Hs. rewrite tierOf_cases.
      unfold staleThreshold.
      destruct (stampWritten (snd e) <? 0) eqn:E0; [lia|].
      destruct (now <? stampWritten (snd e)) eqn:E1; [lia|]. simpl.
      destruct (stampWritten (snd e) <? now - 100) eqn:E2;
        destruct (now - stampWritten (snd e) >? 100) eqn:E3;
        try reflexivity; rewrite ?Z.gtb_ltb in *; lia.
    + intros e He.
      destruct (pass_buffered_cases f now st e (inv_buffer _ Hinv) He)
        as [H|H]; [exact H|].
      fold after in H. rewrite Hempty in H. destruct H.
Qed.

(** C3 on an example: segment 1 is emitted, delivered again below the
    watermark, and two more passes follow. *)
Lemma redelivery_never_reemits_witness :
  let after :=
    run (redelivery ++ [Pass false 1030; Pass true 1040]) initial in
  occurrences 1 after = 1%nat
  /\ (forall t, In t (transcripts (run firstDelivery initial)) ->
                In t (transcripts after))
  /\ (forall t, In t (transcripts after) -> sequence_id t = Some 1 ->
                In t (transcripts (run firstDelivery initial))).
Proof.
  apply (redelivery_never_reemits firstDelivery
           [Pass false 1030; Pass true 1040] (segment 1 0 "hello") 1020).
  vm_compute. left. reflexivity.
Defined.

(** C8 as stated fails: after the second delivery of segment 1 the buffer
    holds a segment whose id is in the output. *)
Lemma redelivered_copy_sits_in_buffer :
  ~ buffer_invariant_as_stated redelivery (run redelivery initial).
Proof.
  intros [_ H]. apply (H 1); vm_compute; left; reflexivity.
Qed.

(** C10 as amended, on an example: segments 2 and 5, buffered at 1000 and
    1001 behind the missing segment 1, are both drained by the pass at
    1010. *)
Lemma every_pass_empties_buffer_witness :
  transcriptBuffer
    (processBufferedTranscripts false 1010 (run gapDelivery initial)) = []
  /\ emittedIds
       (processBufferedTranscripts false 1010 (run gapDelivery initial))
     = [Some 2; Some 5].
Proof.
  split; [|reflexivity].
  destruct (every_pass_empties_buffer gapDelivery false 1010)
    as [_ [_ Hclock]].
  apply Hclock.
  intros payload n [H|[H|[]]]; inversion H; lia.
Defined.

(** Five segments delivered in order are drained by the sequential loop of
    one pass, which leaves the watermark at 5. *)
Example in_order_delivery :
  let st :=
    run [Arrive (segment 1 10 "a") 1000; Arrive (segment 2 20 "b") 1001;
         Arrive (segment 3 30 "c") 1002; Arrive (segment 4 40 "d") 1003;
         Arrive (segment 5 50 "e") 1004; Pass false 1014] initial in
  lastProcessedSequence st = 5
  /\ emittedIds st = [Some 1; Some 2; Some 3; Some 4; Some 5]
  /\ transcriptBuffer st = [].
Proof. vm_compute. repeat split. Qed.

(** C10 as stated fails: segment 2 is buffered at 1000 behind the missing
    segment 1, and the pass that reads the clock at 999 keeps it: the age is
    negative, below both thresholds. *)
Lemma clock_set_back_keeps_segment : ~ no_segment_retained_as_stated.
Proof.
  intros H. specialize (H [Arrive (segment 2 20 "two") 1000] false 999).
  vm_compute in H. discriminate H.
Qed.

(** A segment buffered while the clock read a negative number is kept by
    every pass that is not forced, however late: its id starts with a dash
    and no age can be taken of it. *)
Example negative_stamp_keeps_segment :
  map_keys
    (transcriptBuffer
       (run [Arrive (segment 2 20 "two") (-5); Pass false 1000] initial))
  = [2].
Proof. reflexivity. Qed.

(** *** Further properties of the reconciler *)

(** X4: [sortTranscripts] returns the transcripts it was given, each as
    often as it was given, in ascending [(chunk_start_time, sequence_id)]
    order. *)
Theorem sortTranscripts_sorts (l : list Transcript) :
  Permutation (sortTranscripts l) l /\ ordered (sortTranscripts l).
Proof.
  split; [apply array_sort_perm | apply array_sort_ordered].
Qed.

Lemma map_has_set (k : Z) (v : Transcript) (m : JsMap) :
  map_has k (map_set k v m) = true.
Proof.
  unfold map_set. destruct (map_has k m) eqn:H.
  - unfold map_has in *. rewrite existsb_exists in *.
    destruct H as [e [Hin Hk]]. exists (if fst e =? k then (k, v) else e).
    split.
    + apply in_map_iff. exists e. split; [reflexivity | exact Hin].
    + rewrite Hk. simpl. apply Z.eqb_refl.
  - unfold map_has. rewrite existsb_app. simpl. rewrite Z.eqb_refl.
    now rewrite orb_true_r.
Qed.

(** X5: of two deliveries with the same sequence id that follow each other,
    the second changes nothing, whatever it carries and whenever it comes:
    buffer, counter, watermark and output are those the first one left. *)
Theorem first_delivery_wins (p1 p2 : TranscriptUpdate.t) (n1 n2 : Z)
        (st : State) :
  TranscriptUpdate.sequence_id p2 = TranscriptUpdate.sequence_id p1 ->
  onTranscriptUpdate p2 n2 (onTranscriptUpdate p1 n1 st)
  = onTranscriptUpdate p1 n1 st.
Proof.
  intros Hid. unfold onTranscriptUpdate at 1. rewrite Hid.
  unfold onTranscriptUpdate.
  destruct (map_has (TranscriptUpdate.sequence_id p1) (transcriptBuffer st))
    eqn:Hhas.
  - now rewrite Hhas.
  - simpl. now rewrite map_has_set.
Qed.

Lemma first_delivery_wins_witness :
  run [Arrive (segment 7 70 "first") 1000; Arrive (segment 7 71 "second") 1005]
      initial
  = run [Arrive (segment 7 70 "first") 1000] initial.
Proof.
  apply (first_delivery_wins (segment 7 70 "first") (segment 7 71 "second")).
  reflexivity.
Defined.

(** X6: the updater is idempotent: handing it the same batch again returns
    the list it returned the first time. *)
Theorem mergeTranscripts_idempotent (allNew prev : list Transcript) :
  mergeTranscripts allNew (mergeTranscripts allNew prev)
  = mergeTranscripts allNew prev.
Proof.
  assert (Hnone : uniqueNewTranscripts allNew (mergeTranscripts allNew prev)
                  = []).
  { unfold uniqueNewTranscripts. apply filter_all_false. intros t Ht.
    destruct (sequence_id t) as [s|] eqn:Hs; [|reflexivity].
    apply negb_false_iff, set_has_definedIds.
    now apply (mergeTranscripts_covers allNew prev t). }
  unfold mergeTranscripts at 1. now rewrite Hnone.
Qed.

(** X7: a pass that finds in the buffer only segments whose ids are in the
    output already (re-delivered copies) returns the output list itself,
    unchanged. *)
Theorem pass_of_copies_keeps_output (es : list Event) (f : bool) (now : Z) :
  let st := run es initial in
  (forall s, In s (map_keys (transcriptBuffer st)) ->
             In (Some s) (emittedIds st)) ->
  transcripts (processBufferedTranscripts f now st) = transcripts st.
Proof.
  intros st Hcopies. destruct (reachable_sound es) as [Hinv _].
  fold st in Hinv. rewrite pass_transcripts. unfold mergeTranscripts.
  replace (uniqueNewTranscripts (allNewTranscripts f now st) (transcripts st))
    with (@nil Transcript); [reflexivity|].
  symmetry. unfold uniqueNewTranscripts. apply filter_all_false.
  intros t Ht.
  destruct (pass_batch_buffered f now st t (inv_buffer _ Hinv) Ht)
    as [s [Hs Hin]].
  rewrite Hs. apply negb_false_iff, set_has_definedIds, Hcopies.
  unfold map_keys. now apply (in_map fst) in Hin.
Qed.

Lemma pass_of_copies_keeps_output_witness :
  transcripts (processBufferedTranscripts false 1030 (run redelivery initial))
  = transcripts (run redelivery initial).
Proof.
  apply (pass_of_copies_keeps_output redelivery false 1030).
  intros s [<-|[]]. vm_compute. left. reflexivity.
Defined.

Lemma map_delete_keys (k s : Z) (m : JsMap) :
  In s (map_keys (map_delete k m)) <-> In s (map_keys m) /\ s <> k.
Proof.
  unfold map_keys. rewrite !in_map_iff. split.
  - intros [e [<- He]]. apply map_delete_In in He. destruct He as [He Hk].
    split; [now exists e | exact Hk].
  - intros [[e [<- He]] Hk]. exists e. split; [reflexivity|].
    now apply map_delete_In.
Qed.

(** Where the sequential loop stops. *)
Lemma sequentialDrain_range (m : JsMap) (last : Z) (acc : list Transcript) :
  forall m' last' out,
    sequentialDrain m last acc = (m', last', out) ->
    ~ In (last' + 1) (map_keys m)
    /\ (forall s, last < s <= last' ->
                  In s (map_keys m) /\ ~ In s (map_keys m')).
Proof.
  funelim (sequentialDrain m last acc).
  - intros m' last' out Hres.
    destruct (sequentialDrain_incl _ _ _ _ _ _ Hres) as [Hincl Hle].
    match goal with
    | IH : forall _ _ _, _ -> _ |- _ =>
        destruct (IH _ _ _ Hres) as [Hstop Hrange]
    end.
    split.
    + intros Hin. apply Hstop. apply map_delete_keys. split; [exact Hin|lia].
    + intros s Hs. destruct (Z.eq_dec s (last + 1)) as [->|Hne].
      * split.
        -- pose proof (map_get_In _ _ _ Hget) as Hfound. unfold map_keys.
           now apply (in_map fst) in Hfound.
        -- intros Hin. unfold map_keys in Hin. apply in_map_iff in Hin.
           destruct Hin as [e [He Hin]]. apply Hincl, map_delete_In in Hin.
           tauto.
      * destruct (Hrange s) as [Hin Hout]; [lia|].
        apply map_delete_keys in Hin. tauto.
  - intros m' last' out [= <- <- <-]. split.
    + match goal with
      | Hnone : map_get _ _ = None |- _ => exact (map_get_None _ _ Hnone)
      end.
    + intros s Hs. lia.
Qed.

Lemma tierLoop_remaining_incl (f : bool) (now : Z) (l : JsMap) (acc : Tiers) :
  incl (remaining (fold_left (tierStep f now) l acc)) (remaining acc).
Proof.
  revert acc. induction l as [|e l IH]; intros acc; [apply incl_refl|].
  simpl. eapply incl_tran; [apply IH|].
  rewrite tierStep_tierOf.
  destruct (tierOf f now (snd e)); simpl;
    try (intros x Hx; now apply map_delete_In in Hx).
  apply incl_refl.
Qed.

(** How far a pass moves the watermark. *)
Lemma pass_watermark_range (f : bool) (now : Z) (st : State) :
  let st' := processBufferedTranscripts f now st in
  lastProcessedSequence st <= lastProcessedSequence st'
  /\ (forall s,
        lastProcessedSequence st < s <= lastProcessedSequence st' ->
        In s (map_keys (transcriptBuffer st))
        /\ ~ In s (map_keys (transcriptBuffer st')))
  /\ ~ In (lastProcessedSequence st' + 1) (map_keys (transcriptBuffer st)).
Proof.
  unfold processBufferedTranscripts, reductionPass.
  destruct (sequentialDrain _ _ _) as [[m1 last1] out] eqn:Hd. simpl.
  destruct (sequentialDrain_incl _ _ _ _ _ _ Hd) as [_ Hle].
  destruct (sequentialDrain_range _ _ _ _ _ _ Hd) as [Hstop Hrange].
  split; [exact Hle|]. split; [|exact Hstop].
  intros s Hs. destruct (Hrange s Hs) as [Hin Hout]. split; [exact Hin|].
  intros Hrem. apply Hout. unfold map_keys in *. apply in_map_iff in Hrem.
  destruct Hrem as [e [He Hrem]]. apply in_map_iff. exists e.
  split; [exact He|]. now apply (tierLoop_remaining_incl f now m1) in Hrem.
Qed.

(** X8: a pass moves the watermark over the ids that follow it without a gap
    in the buffer and stops at the first id that is missing: every id it
    moves over was buffered and is buffered no more, the id after the new
    watermark was not in the buffer, and the watermark does not move
    back. *)
Theorem watermark_stops_at_first_gap (f : bool) (now : Z) (st : State) :
  let st' := processBufferedTranscripts f now st in
  lastProcessedSequence st <= lastProcessedSequence st'
  /\ (forall s,
        lastProcessedSequence st < s <= lastProcessedSequence st' ->
        In s (map_keys (transcriptBuffer st))
        /\ ~ In s (map_keys (transcriptBuffer st')))
  /\ ~ In (lastProcessedSequence st' + 1) (map_keys (transcriptBuffer st)).
Proof. apply pass_watermark_range. Qed.

Lemma arrivals_only_buffer (ps : list (TranscriptUpdate.t * Z)) (st : State) :
  lastProcessedSequence (run (arrivals ps) st) = lastProcessedSequence st
  /\ transcripts (run (arrivals ps) st) = transcripts st.
Proof.
  revert st. induction ps as [|p ps IH]; intros st; [now split|].
  change (run (arrivals (p :: ps)) st)
    with (run (arrivals ps) (onTranscriptUpdate (fst p) (snd p) st)).
  destruct (IH (onTranscriptUpdate (fst p) (snd p) st)) as [H1 H2].
  rewrite H1, H2. unfold onTranscriptUpdate.
  destruct (map_has _ _); now split.
Qed.

Lemma arrivedIds_arrivals (ps : list (TranscriptUpdate.t * Z)) :
  arrivedIds (arrivals ps)
  = map (fun p => TranscriptUpdate.sequence_id (fst p)) ps.
Proof.
  induction ps as [|p ps IH]; simpl; [reflexivity | now rewrite IH].
Qed.

Lemma firstIds_In (n : nat) (s : Z) :
  In s (firstIds n) <-> 1 <= s <= Z.of_nat n.
Proof.
  unfold firstIds. rewrite in_map_iff. split.
  - intros [k [<- Hk]]. apply in_seq in Hk. lia.
  - intros Hs. exists (Z.to_nat s). split; [lia|]. apply in_seq. lia.
Qed.

Lemma firstIds_NoDup (n : nat) : NoDup (firstIds n).
Proof.
  unfold firstIds. generalize 1%nat as start.
  induction n as [|n IH]; intros start; simpl; constructor.
  - rewrite in_map_iff. intros [k [Hk Hin]]. apply in_seq in Hin. lia.
  - apply IH.
Qed.

(** X9: when the segments 1 to n are delivered in this order to a fresh
    reconciler, whatever they carry and whatever the clock reads, one pass
    of any kind moves the watermark to n, empties the buffer and puts
    exactly the ids 1 to n in the output, each once. *)
Theorem in_order_delivery_drained (ps : list (TranscriptUpdate.t * Z))
        (n : nat) (f : bool) (now : Z) :
  map (fun p => TranscriptUpdate.sequence_id (fst p)) ps = firstIds n ->
  let st := processBufferedTranscripts f now (run (arrivals ps) initial) in
  lastProcessedSequence st = Z.of_nat n
  /\ transcriptBuffer st = []
  /\ Permutation (emittedIds st) (map (@Some Z) (firstIds n)).
Proof.
  intros Hids st. set (st0 := run (arrivals ps) initial) in *.
  destruct (reachable_sound (arrivals ps)) as [Hinv0 Hacc0].
  fold st0 in Hinv0, Hacc0.
  destruct (arrivals_only_buffer ps initial) as [Hlast0 Hout0].
  fold st0 in Hlast0, Hout0. simpl in Hlast0, Hout0.
  assert (Hkeys : forall s, In s (map_keys (transcriptBuffer st0))
                            <-> 1 <= s <= Z.of_nat n).
  { intros s. rewrite <- firstIds_In, <- Hids, <- arrivedIds_arrivals. split.
    - apply Hacc0.
    - intros Hs. destruct (acc_arrived _ _ Hacc0 s Hs) as [H|H]; [|exact H].
      unfold emittedIds in H. rewrite Hout0 in H. destruct H. }
  destruct (pass_watermark_range f now st0) as [Hle [Hrange Hstop]].
  fold st in Hle, Hrange, Hstop. rewrite Hlast0 in Hle, Hrange.
  assert (Hlast : lastProcessedSequence st = Z.of_nat n).
  { rewrite Hkeys in Hstop.
    destruct (Z_le_gt_dec (lastProcessedSequence st) (Z.of_nat n))
      as [Hsmall|Hbig]; [lia|].
    destruct (Hrange (lastProcessedSequence st)) as [Hin _]; [lia|].
    apply Hkeys in Hin. lia. }
  assert (Hempty : transcriptBuffer st = []).
  { assert (Hnone : forall e, ~ In e (transcriptBuffer st)).
    { intros e Hin.
      pose proof (pass_buffer_incl f now st0 (inv_buffer _ Hinv0) e Hin)
        as Hin0.
      assert (Hk : In (fst e) (map_keys (transcriptBuffer st0)))
        by (unfold map_keys; now apply in_map).
      apply Hkeys in Hk. destruct (Hrange (fst e)) as [_ Hout]; [lia|].
      apply Hout. unfold map_keys. now apply in_map. }
    destruct (transcriptBuffer st) as [|e m]; [reflexivity|].
    exfalso. apply (Hnone e). now left. }
  split; [exact Hlast|]. split; [exact Hempty|].
  destruct (reachable_sound (arrivals ps ++ [Pass f now])) as [Hinv Hacc].
  rewrite run_snoc in Hinv, Hacc. simpl in Hinv, Hacc.
  fold st0 in Hinv, Hacc. fold st in Hinv, Hacc.
  assert (Harr : arrivedIds (arrivals ps ++ [Pass f now]) = firstIds n).
  { rewrite arrivedIds_app, arrivedIds_arrivals, Hids. simpl.
    apply app_nil_r. }
  apply NoDup_Permutation.
  - apply Hinv.
  - apply Some_injective_NoDup, firstIds_NoDup.
  - intros x. split.
    + intros Hx. destruct (acc_emitted _ _ Hacc x Hx) as [s [-> Hs]].
      apply in_map. now rewrite <- Harr.
    + intros Hx. apply in_map_iff in Hx. destruct Hx as [s [<- Hs]].
      rewrite <- Harr in Hs.
      destruct (acc_arrived _ _ Hacc s Hs) as [H|H]; [exact H|].
      rewrite Hempty in H. destruct H.
Qed.

Lemma in_order_delivery_drained_witness :
  let st :=
    processBufferedTranscripts false 990
      (run (arrivals [(segment 1 30 "a", 1000); (segment 2 20 "b", 1001);
                      (segment 3 10 "c", 1002)]) initial) in
  lastProcessedSequence st = 3
  /\ transcriptBuffer st = []
  /\ Permutation (emittedIds st) [Some 1; Some 2; Some 3].
Proof.
  apply (in_order_delivery_drained
           [(segment 1 30 "a", 1000); (segment 2 20 "b", 1001);
            (segment 3 10 "c", 1002)] 3 false 990).
  reflexivity.
Defined.

Lemma select_as_filter (f : bool) (now : Z) (tier : Tier)
      (keep : Z * Transcript -> bool) (m : JsMap) :
  (forall e, tier_eqb (tierOf f now (snd e)) tier = keep e) ->
  select f now tier m = filter keep m.
Proof. intros H. unfold select. apply filter_ext. exact H. Qed.

(** X10: with distinct keys in the buffer, the [for] loop of a pass is a
    split of the buffer by the clock reading in each id: a pass that is not
    forced keeps the entries whose reading is negative or later than its
    own, moves those older than 100 ms to the stale list and the others to
    the recent list, each list in buffer order, and forces nothing; a
    forced pass moves every entry to the forced list. *)
Theorem tier_loop_splits_by_age (now : Z) (m : JsMap) :
  NoDup (map_keys m) ->
  tierLoop false now m =
  mkTiers (filter (fun e => negb (stampUsable now e)) m)
          (map_values
             (filter (fun e => stampUsable now e
                               && (stampWritten (snd e) <? now - 100)) m))
          (map_values
             (filter (fun e => stampUsable now e
                               && (now - 100 <=? stampWritten (snd e))) m))
          []
  /\ tierLoop true now m = mkTiers [] [] [] (map_values m).
Proof.
  intros Hnd. rewrite !tierLoop_spec by exact Hnd. split.
  - rewrite (select_as_filter false now Kept
               (fun e => negb (stampUsable now e))),
      (select_as_filter false now Stale
         (fun e => stampUsable now e
                   && (stampWritten (snd e) <? now - 100))),
      (select_as_filter false now Recent
         (fun e => stampUsable now e
                   && (now - 100 <=? stampWritten (snd e)))),
      (select_as_filter false now Forced (fun _ => false)).
    + f_equal. clear Hnd. induction m as [|e m IH]; simpl; auto.
    + intros e. rewrite tierOf_cases.
      destruct (_ || _); [reflexivity|].
      destruct (_ <? _); reflexivity.
    + intros e. rewrite tierOf_cases. unfold stampUsable.
      destruct (stampWritten (snd e) <? 0) eqn:E0;
        destruct (now <? stampWritten (snd e)) eqn:E1;
        destruct (stampWritten (snd e) <? now - 100) eqn:E2;
        destruct (0 <=? stampWritten (snd e)) eqn:E3;
        destruct (stampWritten (snd e) <=? now) eqn:E4;
        destruct (now - 100 <=? stampWritten (snd e)) eqn:E5;
        simpl; try reflexivity; lia.
    + intros e. rewrite tierOf_cases. unfold stampUsable.
      destruct (stampWritten (snd e) <? 0) eqn:E0;
        destruct (now <? stampWritten (snd e)) eqn:E1;
        destruct (stampWritten (snd e) <? now - 100) eqn:E2;
        destruct (0 <=? stampWritten (snd e)) eqn:E3;
        destruct (stampWritten (snd e) <=? now) eqn:E4;
        simpl; try reflexivity; lia.
    + intros e. rewrite tierOf_cases. unfold stampUsable.
      destruct (stampWritten (snd e) <? 0) eqn:E0;
        destruct (now <? stampWritten (snd e)) eqn:E1;
        destruct (stampWritten (snd e) <? now - 100) eqn:E2;
        destruct (0 <=? stampWritten (snd e)) eqn:E3;
        destruct (stampWritten (snd e) <=? now) eqn:E4;
        simpl; try reflexivity; lia.
  - rewrite (select_as_filter true now Kept (fun _ => false)),
      (select_as_filter true now Stale (fun _ => false)),
      (select_as_filter true now Recent (fun _ => false)),
      (select_as_filter true now Forced (fun _ => true));
      try (intros e; reflexivity).
    assert (Hno : forall l : JsMap, filter (fun _ => false) l = []).
    { induction l; simpl; auto. }
    assert (Hall : forall l : JsMap, filter (fun _ => true) l = l).
    { induction l as [|x l IHl]; simpl; [reflexivity | now rewrite IHl]. }
    now rewrite Hno, Hall.
Qed.

Lemma tier_loop_splits_by_age_witness :
  tierLoop false 1050
    [(4, mkTranscript (900, 0) "d" "" (Some 4) None false None None None None);
     (6, mkTranscript (1000, 1) "f" "" (Some 6) None false None None None None);
     (9, mkTranscript (1060, 2) "i" "" (Some 9) None false None None None None);
     (7, mkTranscript (-3, 3) "g" "" (Some 7) None false None None None None)]
  = mkTiers
      [(9, mkTranscript (1060, 2) "i" "" (Some 9) None false None None None
                        None);
       (7, mkTranscript (-3, 3) "g" "" (Some 7) None false None None None
                        None)]
      [mkTranscript (900, 0) "d" "" (Some 4) None false None None None None]
      [mkTranscript (1000, 1) "f" "" (Some 6) None false None None None None]
      [].
Proof.
  etransitivity.
  - apply tier_loop_splits_by_age. unfold map_keys. simpl.
    repeat constructor; simpl; intuition discriminate.
  - reflexivity.
Defined.

Lemma transcripts_split_by (keep : Transcript -> bool) (ts : list Transcript) :
  Permutation ts (filter keep ts ++ filter (fun t => negb (keep t)) ts).
Proof.
  induction ts as [|t ts IH]; simpl; [reflexivity|].
  destruct (keep t); simpl.
  - now apply perm_skip.
  - now apply Permutation_cons_app.
Qed.

(** A pass only moves or drops transcripts: those known before it are those
    known after it together with the ones it dropped. *)
Lemma pass_known (f : bool) (now : Z) (st : State) :
  wf_buffer (transcriptBuffer st) ->
  exists dropped,
    Permutation (knownTranscripts st)
                (knownTranscripts (processBufferedTranscripts f now st)
                   ++ dropped).
Proof.
  intros Hwf. destruct (pass_split f now st Hwf) as [D [Hperm [Hval _]]].
  set (st' := processBufferedTranscripts f now st) in *.
  set (batch := allNewTranscripts f now st) in *.
  pose proof (mergeTranscripts_perm batch (transcripts st)) as Hmerge.
  exists (filter (fun t => negb
            match sequence_id t with
            | Some s => negb (set_has s (definedIds (transcripts st)))
            | None => false
            end) batch).
  unfold knownTranscripts. unfold st' at 2. rewrite pass_transcripts.
  fold batch. rewrite Hmerge.
  apply (Permutation_map snd) in Hperm. fold (map_values (transcriptBuffer st))
    in Hperm. rewrite Hperm. rewrite map_app.
  fold (map_values D). fold (map_values (transcriptBuffer st')).
  rewrite Hval.
  rewrite (transcripts_split_by
             (fun t => match sequence_id t with
                       | Some s =>
                           negb (set_has s (definedIds (transcripts st)))
                       | None => false
                       end) batch) at 1.
  fold (uniqueNewTranscripts batch (transcripts st)).
  set (u := uniqueNewTranscripts batch (transcripts st)).
  set (d := filter _ batch).
  set (b := map_values (transcriptBuffer st')).
  set (o := transcripts st).
  (* (u ++ d) ++ b ++ o  ~  (b ++ o ++ u) ++ d *)
  rewrite <- !app_assoc.
  rewrite (Permutation_app_comm u (d ++ b ++ o)).
  rewrite <- !app_assoc.
  rewrite (Permutation_app_comm d (b ++ o ++ u)).
  rewrite <- !app_assoc. reflexivity.
Qed.

Lemma step_fresh_ids (st : State) (e : Event) :
  wf_buffer (transcriptBuffer st) ->
  NoDup (map id (knownTranscripts st))
  /\ Forall (fun t => snd (id t) < transcriptCounter st)
            (knownTranscripts st) ->
  NoDup (map id (knownTranscripts (step st e)))
  /\ Forall (fun t => snd (id t) < transcriptCounter (step st e))
            (knownTranscripts (step st e)).
Proof.
  intros Hwf [Hnd Hlt]. destruct e as [payload now | f now]; simpl.
  - unfold onTranscriptUpdate.
    destruct (map_has _ _) eqn:Hhas; [now split|].
    unfold knownTranscripts in *. simpl.
    rewrite map_set_fresh by exact Hhas.
    set (new := mkTranscript _ _ _ _ _ _ _ _ _ _).
    set (known := map_values (transcriptBuffer st) ++ transcripts st) in *.
    set (known' := map_values (transcriptBuffer st ++ [_]) ++ transcripts st).
    assert (Hperm : Permutation known' (new :: known)).
    { unfold known', known, map_values. rewrite map_app, <- app_assoc.
      simpl. symmetry. apply Permutation_middle. }
    split.
    + apply (Permutation_NoDup (Permutation_map id (Permutation_sym Hperm))).
      simpl. constructor; [|exact Hnd].
      rewrite in_map_iff. intros [t [Hid Hin]].
      rewrite Forall_forall in Hlt. apply Hlt in Hin.
      rewrite Hid in Hin. simpl in Hin. lia.
    + apply (Permutation_Forall (Permutation_sym Hperm)).
      constructor; [simpl; lia|].
      eapply Forall_impl; [|exact Hlt]. intros t Ht. simpl in Ht. lia.
  - destruct (pass_known f now st Hwf) as [dropped Hperm].
    rewrite pass_counter. split.
    + apply (Permutation_map id) in Hperm.
      apply (Permutation_NoDup Hperm) in Hnd. rewrite map_app in Hnd.
      now apply NoDup_app_remove_r in Hnd.
    + apply (Permutation_Forall Hperm) in Hlt. apply Forall_app in Hlt.
      tauto.
Qed.

(** X11: the [id] strings the listener builds are never shared: in every
    state a run leads to, the transcripts in the buffer and in the output
    have pairwise distinct ids (so the output has), each with a counter
    below [transcriptCounter]; a clock that stands still or is set back
    does not make two ids equal. *)
Theorem transcript_ids_unique (es : list Event) :
  let st := run es initial in
  NoDup (map id (knownTranscripts st))
  /\ NoDup (map id (transcripts st))
  /\ Forall (fun t => snd (id t) < transcriptCounter st)
            (knownTranscripts st).
Proof.
  intros st.
  assert (H : NoDup (map id (knownTranscripts st))
              /\ Forall (fun t => snd (id t) < transcriptCounter st)
                        (knownTranscripts st)).
  { unfold st. clear st. induction es as [|e es IH] using rev_ind.
    - split; constructor.
    - rewrite run_snoc. apply step_fresh_ids; [|exact IH].
      apply (inv_buffer _ (proj1 (reachable_sound es))). }
  destruct H as [Hnd Hlt]. repeat split; try assumption.
  unfold knownTranscripts in Hnd. rewrite map_app in Hnd.
  now apply NoDup_app_remove_l in Hnd.
Qed.

End ReconcilerFacts.

(** ** The stop/flush protocol *)

Module StopFlushFacts.

Import Reconciler StopFlush.

(** *** The polling loop *)


(** Entered with the flag set, the loop is left at once. *)
Lemma pollLoop_flag_set (env : Env) (k : nat) (elapsed : Z)
      (complete : bool) :
  complete = true ->
  pollLoop env k elapsed complete = mkWait elapsed complete k.
Proof.
  funelim (pollLoop env k elapsed complete); intros ->;
    try reflexivity;
    pose proof Hcond as Hc; rewrite andb_false_r in Hc; discriminate.
Qed.

Lemma pollLoop_completed (env : Env) (k : nat) (elapsed : Z) :
  pollLoop env k elapsed true = mkWait elapsed true k.
Proof. now apply pollLoop_flag_set. Qed.

(** What the loop returns from its [k]-th iteration on: the flag is set
    exactly when it was set already or an executed iteration found a
    completion condition, and no iteration before the last executed one
    found a condition or a rejected query. *)
Lemma pollLoop_spec (env : Env) (k : nat) (elapsed : Z) (complete : bool) :
  (k <= polls (pollLoop env k elapsed complete))%nat
  /\ (transcriptionComplete (pollLoop env k elapsed complete) = true <->
      complete = true
      \/ exists j, (k <= j < polls (pollLoop env k elapsed complete))%nat
                   /\ completionAt env j = true)
  /\ (forall j, (k <= j)%nat ->
                (S j < polls (pollLoop env k elapsed complete))%nat ->
                completionAt env j = false /\ pollFails env j = false).
Proof.
  funelim (pollLoop env k elapsed complete); simpl;
    repeat match goal with
           | Hsig : sigmaI _ _ _ = _ |- _ => clear Hsig
           end;
    try (assert (Hc : complete = false)
          by (destruct (andb_prop _ _ Hcond) as [_ Hn];
              now apply negb_true_iff in Hn);
         clear Heqcall; subst complete);
    (split; [try lia | split; [|try (intros j Hj1 Hj2; lia)]]).
  - (* the loop condition fails *)
    split; [now left | intros [H|[j [Hj _]]]; [assumption | lia]].
  - (* the query is rejected *)
    simpl. split.
    + intros Hev. right. exists k. split; [lia|].
      unfold completionAt. now rewrite Hev.
    + intros [H|[j [Hj Hat]]]; [discriminate|].
      assert (j = k) as -> by lia. unfold completionAt in Hat.
      rewrite Heq in Hat. now rewrite orb_false_r in Hat.
  - (* the queue is idle *)
    split; [|reflexivity]. intros _. right. exists k. split; [lia|].
    unfold completionAt. rewrite Heq0, Heq. simpl. apply orb_true_r.
  - (* the queue is quiet *)
    split; [|reflexivity]. intros _. right. exists k. split; [lia|].
    unfold completionAt. rewrite Heq1, Heq, Heq0. simpl. apply orb_true_r.
  - (* the iteration sleeps and the loop goes on *)
    simpl in H |- *. destruct H as [Hle [Hflag _]]. rewrite Hflag.
    assert (Hk : completionAt env k =
                 completeDuringPoll env k || completeDuringSleep env k).
    { unfold completionAt. rewrite Heq1, Heq, Heq0. reflexivity. }
    split.
    + intros [Hev|[j [Hj Hat]]]; right.
      * exists k. split; [lia | now rewrite Hk].
      * exists j. split; [lia | assumption].
    + intros [Hfalse|[j [Hj Hat]]]; [discriminate|].
      destruct (Nat.eq_dec j k) as [->|Hne].
      * left. now rewrite <- Hk.
      * right. exists j. split; [lia | assumption].
  - simpl in H |- *. destruct H as [Hle [_ Hfirst]]. intros j Hj Hlt.
    destruct (Nat.eq_dec j k) as [->|Hne]; [|apply Hfirst; lia].
    assert (Hk : completionAt env k =
                 completeDuringPoll env k || completeDuringSleep env k).
    { unfold completionAt. rewrite Heq1, Heq, Heq0. reflexivity. }
    split; [|unfold pollFails; now rewrite Heq1].
    rewrite Hk. simpl in Hlt.
    destruct (completeDuringPoll env k || completeDuringSleep env k) eqn:E;
      [|reflexivity].
    rewrite pollLoop_completed in Hlt. simpl in Hlt. lia.
Qed.

(** The loop never runs past the maximum wait: started at a multiple of the
    poll interval, it issues at most 120 queries in all and leaves
    [elapsedTime] at a multiple of the interval no larger than the
    maximum. *)
Lemma pollLoop_bounded (env : Env) (k : nat) (elapsed : Z) (complete : bool) :
  forall n : Z,
    elapsed = POLL_INTERVAL * n -> 0 <= n <= 120 ->
    elapsed <= elapsedTime (pollLoop env k elapsed complete) <= MAX_WAIT_TIME
    /\ Z.of_nat (polls (pollLoop env k elapsed complete)) + n
       <= Z.of_nat k + 120
    /\ exists n',
         elapsedTime (pollLoop env k elapsed complete) = POLL_INTERVAL * n'.
Proof.
  funelim (pollLoop env k elapsed complete); intros n Hn Hrange;
    cbn [elapsedTime polls];
    unfold MAX_WAIT_TIME, POLL_INTERVAL in *;
    try (destruct (andb_prop _ _ Hcond) as [Hlt _];
         apply Z.ltb_lt in Hlt).
  1-4: (split; [lia | split; [lia | exists n; assumption]]).
  match goal with
  | IH : forall n : Z, _ |- _ =>
      destruct (IH (n + 1)) as [Hb [Hp Hm]]; [lia | lia |]
  end.
  split; [lia | split; [lia | exact Hm]].
Qed.


(** With no completion condition and no rejected query, the loop runs to
    the maximum wait. *)
Lemma pollLoop_stuck (env : Env) (k : nat) (elapsed : Z) (complete : bool) :
  (forall j, completionAt env j = false /\ pollFails env j = false) ->
  complete = false ->
  forall n : Z,
    elapsed = POLL_INTERVAL * n -> 0 <= n <= 120 ->
    pollLoop env k elapsed complete =
    mkWait MAX_WAIT_TIME false (k + Z.to_nat (120 - n)).
Proof.
  intros Hstuck.
  funelim (pollLoop env k elapsed complete); intros -> n Hn Hrange;
    unfold MAX_WAIT_TIME, POLL_INTERVAL in *.
  - (* the loop condition fails: the maximum wait is reached *)
    pose proof e as Hge. rewrite andb_true_r in Hge.
    apply Z.ltb_ge in Hge.
    assert (n = 120) as -> by lia. simpl. f_equal; [lia | lia].
  - destruct (Hstuck k) as [_ Hf]. unfold pollFails in Hf.
    rewrite Heq in Hf. discriminate.
  - destruct (Hstuck k) as [Hc _]. unfold completionAt in Hc.
    rewrite Heq0, Heq in Hc. simpl in Hc. rewrite orb_true_r in Hc.
    discriminate.
  - destruct (Hstuck k) as [Hc _]. unfold completionAt in Hc.
    rewrite Heq1, Heq, Heq0 in Hc. simpl in Hc. rewrite orb_true_r in Hc.
    discriminate.
  - destruct (andb_prop _ _ Hcond) as [Hlt _]. apply Z.ltb_lt in Hlt.
    assert (Hno : false || completeDuringPoll env k
                  || completeDuringSleep env k = false).
    { destruct (Hstuck k) as [Hc _]. unfold completionAt in Hc.
      rewrite Heq1, Heq, Heq0 in Hc. exact Hc. }
    match goal with
    | IH : _ -> _ -> forall n : Z, _ |- _ =>
        rewrite (IH Hstuck Hno (n + 1)) by lia
    end.
    f_equal. lia.
Qed.

(** *** The claims on the protocol *)


(** C4: in a run whose listener is installed and whose flush function is
    in place, in which the completion event is never received and no status
    query reports an empty queue, the polling loop is left with
    [transcriptionComplete] unset after at most 120 queries and with
    [elapsedTime] at most [MAX_WAIT_TIME]; when no query is rejected it is
    left exactly when [elapsedTime] reaches [MAX_WAIT_TIME], after 120
    queries, and the wait for late segments is skipped; in every case the
    run then calls the forced flush and ends. *)
Theorem drain_timeout_still_flushes (env : Env) (isCallApi : bool)
        (recon : Reconciler.State) (u : unit) :
  listenComplete env = Resolved u ->
  finalFlushRef env = true ->
  (forall k, completeDuringPoll env k = false
             /\ completeDuringSleep env k = false) ->
  (forall k status, transcriptionStatus env k = Resolved status ->
                    chunks_in_queue status <> 0) ->
  let w := pollLoop env 0 0 false in
  let r := handleRecordingStop2 env isCallApi recon in
  transcriptionComplete w = false
  /\ elapsedTime w <= MAX_WAIT_TIME
  /\ (polls w <= 120)%nat
  /\ ((forall k, pollFails env k = false) ->
      w = mkWait MAX_WAIT_TIME false 120
      /\ phases r = [DrainingTranscription w; ForcedFlush; Stopped])
  /\ phases r =
     DrainingTranscription w
       :: (if MAX_WAIT_TIME <=? elapsedTime w then [] else [GraceWindow])
       ++ [ForcedFlush; Stopped]
  /\ reconciler r =
     Reconciler.run (afterFlush env)
       (processBufferedTranscripts true (flushNow env)
          (Reconciler.run (beforeFlush env) recon)).
Proof.
  intros Hlisten Hflush Hevent Hqueue w r.
  assert (Hnone : forall j, completionAt env j = false).
  { intros j. destruct (Hevent j) as [Hp Hs].
    unfold completionAt, queueIdle, queueQuiet. rewrite Hp, Hs.
    destruct (transcriptionStatus env j) as [status|err] eqn:Hst;
      [|reflexivity].
    apply Hqueue, Z.eqb_neq in Hst. rewrite Hst.
    now rewrite !andb_false_r. }
  assert (Hflag : transcriptionComplete w = false).
  { destruct (transcriptionComplete w) eqn:E; [|reflexivity].
    apply (pollLoop_spec env 0 0 false) in E.
    destruct E as [E|[j [_ E]]]; [discriminate | now rewrite Hnone in E]. }
  destruct (pollLoop_bounded env 0 0 false 0) as [[_ Hmax] [Hpolls _]];
    [reflexivity | lia |]. fold w in Hmax, Hpolls.
  assert (Hphases : phases r =
     DrainingTranscription w
       :: (if MAX_WAIT_TIME <=? elapsedTime w then [] else [GraceWindow])
       ++ [ForcedFlush; Stopped]).
  { unfold r, handleRecordingStop2, persist.
    rewrite Hlisten, Hflush. fold w. rewrite Hflag, andb_false_r.
    reflexivity. }
  split; [exact Hflag|]. split; [exact Hmax|]. split; [lia|].
  split; [|split; [exact Hphases|]].
  - intros Hok.
    assert (Hw : w = mkWait MAX_WAIT_TIME false 120).
    { assert (Hstuck : forall j, completionAt env j = false
                                 /\ pollFails env j = false)
        by (intros j; split; [apply Hnone | apply Hok]).
      unfold w.
      apply (pollLoop_stuck env 0 0 false Hstuck eq_refl 0);
        [reflexivity | lia]. }
    split; [exact Hw|]. rewrite Hphases, Hw. reflexivity.
  - unfold r, handleRecordingStop2. rewrite Hlisten, Hflush. reflexivity.
Qed.

(** C6, as amended: in a run in which saving is requested, the listener is
    installed and the flush function is in place, if completion was
    declared the run goes through the wait for late segments, the forced
    flush and then the hand-over to persistence of the output as it stands
    after the flush, with [meetingTitle || savedMeetingName] and the folder
    path, and it reaches the success path exactly when the save call
    resolves with a meeting id (and the refetch resolves); if completion was
    not declared, the run ends after the forced flush without a save.  In
    both cases the flush leaves the buffer empty, and the output is ordered
    and free of duplicate ids. *)
Theorem persisting_follows_forced_flush (env : Env)
        (es : list Reconciler.Event) (u : unit) :
  let recon := Reconciler.run es initial in
  let w := pollLoop env 0 0 false in
  let flushed :=
    processBufferedTranscripts true (flushNow env)
                               (Reconciler.run (beforeFlush env) recon) in
  let final := Reconciler.run (afterFlush env) flushed in
  let r := handleRecordingStop2 env true recon in
  listenComplete env = Resolved u ->
  finalFlushRef env = true ->
  (transcriptionComplete w = true ->
   exists rest,
     phases r =
     [DrainingTranscription w; GraceWindow; ForcedFlush;
      Persisting (titleOr (meetingTitle env) (savedMeetingName env))
                 (transcripts final) (folderPath env)] ++ rest
     /\ (rest = [Failed] \/ exists meetingId, rest = [Saved meetingId; Stopped])
     /\ (durablyClosed r = true <->
         exists response meetingId v,
           saveTranscript env = Resolved response
           /\ meetingIdOf response = Some meetingId
           /\ refetchMeetings env = Resolved v))
  /\ (transcriptionComplete w = false ->
      persistsAfterFlush (phases r) = false /\ durablyClosed r = false
      /\ In ForcedFlush (phases r))
  /\ transcriptBuffer flushed = []
  /\ ordered (transcripts final)
  /\ NoDup (emittedIds final).
Proof.
  intros recon w flushed final r Hlisten Hflush.
  assert (Hinv : invariant final).
  { unfold final, flushed, recon.
    apply ReconcilerFacts.run_invariant, ReconcilerFacts.pass_invariant,
      ReconcilerFacts.run_invariant, ReconcilerFacts.reachable_sound. }
  assert (Hempty : transcriptBuffer flushed = []).
  { apply ReconcilerFacts.pass_empties. intros e _.
    rewrite ReconcilerFacts.tierOf_forced. discriminate. }
  unfold r, handleRecordingStop2, persist, durablyClosed.
  rewrite Hlisten, Hflush. fold recon. fold w. fold flushed. fold final.
  split; [|split; [|split; [exact Hempty | split; apply Hinv]]].
  - intros Hdone. rewrite Hdone. cbn [negb andb app phases].
    destruct (saveTranscript env) as [response|err].
    + destruct (meetingIdOf response) as [meetingId|] eqn:Hid.
      * destruct (refetchMeetings env) as [v|err].
        -- exists [Saved meetingId; Stopped]. repeat split.
           ++ right. now exists meetingId.
           ++ intros _. now exists response, meetingId, v.
        -- exists [Failed]. repeat split; [now left | discriminate|].
           intros [? [? [? [_ [_ H]]]]]. discriminate.
      * exists [Failed]. repeat split; [now left | discriminate|].
        intros [? [? [? [[= <-] [H _]]]]]. congruence.
    + exists [Failed]. repeat split; [now left | discriminate|].
      intros [? [? [? [H _]]]]. discriminate.
  - intros Hnot. rewrite Hnot. cbn [negb andb].
    destruct (MAX_WAIT_TIME <=? elapsedTime w); cbn; repeat split; tauto.
Qed.

(** C4 on an example: the queue always holds three chunks. *)
Lemma drain_timeout_still_flushes_witness :
  phases (handleRecordingStop2 stuckEnv true initial) =
  [DrainingTranscription (mkWait MAX_WAIT_TIME false 120);
   ForcedFlush; Stopped].
Proof.
  destruct (drain_timeout_still_flushes stuckEnv true initial tt)
    as [_ [_ [_ [Hfull _]]]].
  - reflexivity.
  - reflexivity.
  - intros k. split; reflexivity.
  - intros k status H. injection H as <-. discriminate.
  - destruct Hfull as [Hw Hphases]; [reflexivity|].
    rewrite Hphases, Hw. reflexivity.
Defined.

(** C6 as stated fails: the run that times out is asked to save, flushes,
    and hands nothing to persistence. *)
Lemma timed_out_run_is_not_persisted :
  persistsAfterFlush (phases (handleRecordingStop2 stuckEnv true initial))
  <> true.
Proof. vm_compute. discriminate. Qed.

(** C6 as amended, on an example: the first query finds the queue idle,
    segments 2 and 5 are still buffered, and the save resolves. *)
Lemma persisting_follows_forced_flush_witness :
  durablyClosed
    (handleRecordingStop2 idleEnv true (Reconciler.run gapDelivery initial))
  = true.
Proof.
  destruct (persisting_follows_forced_flush idleEnv gapDelivery tt
              eq_refl eq_refl) as [Hdone _].
  destruct (Hdone eq_refl) as [rest [_ [_ Hclosed]]].
  apply Hclosed.
  exists (Some "meeting-1"%string), "meeting-1"%string, tt.
  repeat split.
Defined.

(** *** Further properties of the protocol *)

(** How long the loop has waited when it is left: one interval for each
    query, or one less when the last query ended the loop. *)
Lemma pollLoop_elapsed (env : Env) (k : nat) (elapsed : Z) (complete : bool) :
  elapsed = POLL_INTERVAL * Z.of_nat k ->
  elapsedTime (pollLoop env k elapsed complete)
  = POLL_INTERVAL * Z.of_nat (polls (pollLoop env k elapsed complete))
  \/ ((k < polls (pollLoop env k elapsed complete))%nat
      /\ elapsedTime (pollLoop env k elapsed complete)
         = POLL_INTERVAL
           * (Z.of_nat (polls (pollLoop env k elapsed complete)) - 1)).
Proof.
  funelim (pollLoop env k elapsed complete); intros Hk;
    cbn [elapsedTime polls]; unfold POLL_INTERVAL in *.
  - now left.
  - right. split; lia.
  - right. split; lia.
  - right. split; lia.
  - match goal with
    | IH : _ -> _ \/ _ |- _ => assert (Hrec := IH ltac:(lia))
    end.
    destruct Hrec as [Hrec|[Hlt Hrec]].
    + now left.
    + right. split; [lia | exact Hrec].
Qed.

(** X12: whatever the environment does, the polling loop is left after at
    most 120 status queries with [elapsedTime] between 0 and
    [MAX_WAIT_TIME]; [elapsedTime] is [POLL_INTERVAL] times the number of
    queries, or of the queries but the last when the last one ended the
    loop. *)
Theorem polling_is_bounded (env : Env) :
  let w := pollLoop env 0 0 false in
  (polls w <= 120)%nat
  /\ 0 <= elapsedTime w <= MAX_WAIT_TIME
  /\ (elapsedTime w = POLL_INTERVAL * Z.of_nat (polls w)
      \/ elapsedTime w = POLL_INTERVAL * (Z.of_nat (polls w) - 1)).
Proof.
  intros w.
  destruct (pollLoop_bounded env 0 0 false 0) as [[Hlo Hhi] [Hpolls _]];
    [reflexivity | lia |]. fold w in Hlo, Hhi, Hpolls.
  split; [lia|]. split; [lia|].
  destruct (pollLoop_elapsed env 0 0 false eq_refl) as [H|[_ H]];
    fold w in H; [now left | now right].
Qed.

(** One iteration that is not decisive leads to the next. *)
Lemma pollLoop_next (env : Env) (k : nat) (elapsed : Z) (complete : bool) :
  complete = false -> (elapsed <? MAX_WAIT_TIME) = true ->
  decisive env k = false ->
  pollLoop env k elapsed complete
  = pollLoop env (S k) (elapsed + POLL_INTERVAL) false.
Proof.
  unfold decisive, completionAt, pollFails.
  funelim (pollLoop env k elapsed complete); intros -> Hlt Hdec.
  - pose proof e as He. rewrite Hlt in He. discriminate.
  - rewrite Heq in Hdec. now rewrite orb_true_r in Hdec.
  - rewrite Heq0, Heq in Hdec. simpl in Hdec.
    rewrite !orb_true_r in Hdec. discriminate.
  - rewrite Heq1, Heq, Heq0 in Hdec. simpl in Hdec.
    rewrite !orb_true_r in Hdec. discriminate.
  - rewrite Heq1, Heq, Heq0 in Hdec. simpl in Hdec.
    rewrite orb_false_r in Hdec. simpl. now rewrite Hdec.
Qed.

Lemma pollLoop_prefix (env : Env) (k : nat) :
  (k <= 120)%nat ->
  (forall j, (j < k)%nat -> decisive env j = false) ->
  pollLoop env 0 0 false
  = pollLoop env k (POLL_INTERVAL * Z.of_nat k) false.
Proof.
  induction k as [|k IH]; intros Hk Hnone; [reflexivity|].
  rewrite IH by (try lia; intros j Hj; apply Hnone; lia).
  rewrite pollLoop_next; try reflexivity.
  - f_equal. unfold POLL_INTERVAL. lia.
  - apply Z.ltb_lt. unfold MAX_WAIT_TIME, POLL_INTERVAL. lia.
  - apply Hnone. lia.
Qed.

(** The iteration that is decisive ends the loop. *)
Lemma pollLoop_decides (env : Env) (k : nat) (elapsed : Z) (complete : bool) :
  complete = false -> (elapsed <? MAX_WAIT_TIME) = true ->
  decisive env k = true ->
  pollLoop env k elapsed complete
  = mkWait (elapsed + if sleepsAt env k then POLL_INTERVAL else 0)
           (completionAt env k) (S k).
Proof.
  unfold decisive, completionAt, pollFails, sleepsAt.
  funelim (pollLoop env k elapsed complete); intros -> Hlt Hdec.
  - pose proof e as He. rewrite Hlt in He. discriminate.
  - rewrite Heq. simpl. f_equal; [lia | now rewrite orb_false_r].
  - rewrite Heq0, Heq. simpl. f_equal; [lia | now rewrite orb_true_r].
  - rewrite Heq1, Heq, Heq0. simpl. f_equal; [lia | now rewrite orb_true_r].
  - rewrite Heq1, Heq, Heq0 in Hdec. rewrite Heq1, Heq, Heq0.
    simpl in Hdec. simpl. rewrite orb_false_r in Hdec. rewrite Hdec.
    rewrite pollLoop_completed. reflexivity.
Qed.

(** X13: the first iteration, among the first 120, that meets a completion
    condition or has its query rejected ends the loop: the loop has then
    issued one query per iteration, [transcriptionComplete] tells whether
    that iteration met a completion condition (a rejected query alone
    leaves it unset), and [elapsedTime] counts one interval for each
    earlier iteration, plus one when that iteration reached its timeout
    before the event was seen. *)
Theorem first_decisive_iteration_ends_loop (env : Env) (k : nat) :
  (k < 120)%nat ->
  (forall j, (j < k)%nat -> decisive env j = false) ->
  decisive env k = true ->
  pollLoop env 0 0 false
  = mkWait (POLL_INTERVAL * Z.of_nat k
            + if sleepsAt env k then POLL_INTERVAL else 0)
           (completionAt env k) (S k).
Proof.
  intros Hk Hnone Hdec.
  rewrite (pollLoop_prefix env k) by (try lia; exact Hnone).
  apply pollLoop_decides; [reflexivity | | exact Hdec].
  apply Z.ltb_lt. unfold MAX_WAIT_TIME, POLL_INTERVAL. lia.
Qed.

Lemma first_decisive_iteration_ends_loop_witness :
  pollLoop flakyEnv 0 0 false = mkWait 1000 false 3
  /\ phases (handleRecordingStop2 flakyEnv true initial)
     = [DrainingTranscription (mkWait 1000 false 3); GraceWindow;
        ForcedFlush; Stopped].
Proof.
  assert (H : pollLoop flakyEnv 0 0 false = mkWait 1000 false 3).
  { apply (first_decisive_iteration_ends_loop flakyEnv 2).
    - lia.
    - intros [|[|j]] Hj; try reflexivity. lia.
    - reflexivity. }
  split; [exact H|].
  unfold handleRecordingStop2. simpl listenComplete. cbv iota.
  rewrite H. reflexivity.
Defined.

(** X14: nothing is handed to persistence unless the listener was
    installed, saving was requested and completion was declared; and a run
    whose listener is installed and that is not asked to save ends with
    [Stopped], without a save and without a failure. *)
Theorem save_needs_request_and_completion (env : Env) (isCallApi : bool)
        (recon : Reconciler.State) :
  let r := handleRecordingStop2 env isCallApi recon in
  (existsb is_persisting (phases r) = true ->
   isCallApi = true
   /\ transcriptionComplete (pollLoop env 0 0 false) = true
   /\ exists u, listenComplete env = Resolved u)
  /\ (isCallApi = false ->
      (exists u, listenComplete env = Resolved u) ->
      existsb is_persisting (phases r) = false
      /\ last (phases r) Failed = Stopped
      /\ ~ In Failed (phases r)).
Proof.
  unfold handleRecordingStop2, persist.
  destruct (listenComplete env) as [u|err]; simpl.
  - set (w := pollLoop env 0 0 false).
    destruct (negb (transcriptionComplete w)
              && (MAX_WAIT_TIME <=? elapsedTime w));
      destruct (finalFlushRef env); destruct isCallApi;
      destruct (transcriptionComplete w); simpl;
      (split; [intros H; try discriminate; repeat split; eauto
              | intros H1 H2; try discriminate; repeat split;
                intuition discriminate]).
  - split; [discriminate | intros _ [u Hu]; discriminate].
Qed.

(** X15: whatever is handed to persistence, by a run with the flush
    function in place that starts from a state the reconciler can be in,
    holds every sequence id delivered before the forced flush exactly once,
    holds no id twice, and is in ascending
    [(chunk_start_time, sequence_id)] order. *)
Theorem persisted_transcript_is_complete (env : Env) (isCallApi : bool)
        (es : list Reconciler.Event) (title folder : option string)
        (freshTranscripts : list Transcript) :
  finalFlushRef env = true ->
  In (Persisting title freshTranscripts folder)
     (phases (handleRecordingStop2 env isCallApi
                                   (Reconciler.run es initial))) ->
  (forall s, In s (arrivedIds (es ++ beforeFlush env)) ->
             count_occ id_eq_dec (map sequence_id freshTranscripts) (Some s)
             = 1%nat)
  /\ NoDup (map sequence_id freshTranscripts)
  /\ ordered freshTranscripts.
Proof.
  intros Hflush Hin. unfold handleRecordingStop2 in Hin.
  destruct (listenComplete env) as [u|err];
    [|destruct Hin as [Hin|[]]; discriminate].
  rewrite Hflush in Hin. cbn [phases] in Hin.
  set (st1 := Reconciler.run (beforeFlush env) (Reconciler.run es initial))
    in *.
  set (flushed := processBufferedTranscripts true (flushNow env) st1) in *.
  set (final := Reconciler.run (afterFlush env) flushed) in *.
  assert (Hts : freshTranscripts = transcripts final).
  { destruct Hin as [Hin|Hin]; [discriminate|].
    apply in_app_or in Hin. destruct Hin as [Hin|Hin].
    - destruct (_ && _) in Hin; simpl in Hin; intuition discriminate.
    - destruct Hin as [Hin|Hin]; [discriminate|].
      unfold persist in Hin. destruct (_ && _) in Hin.
      + destruct Hin as [Hin|Hin]; [now injection Hin as _ <- _|].
        destruct (saveTranscript env) as [resp|e1];
          [destruct (meetingIdOf resp);
           [destruct (refetchMeetings env)|]|];
          simpl in Hin; intuition discriminate.
      + simpl in Hin. intuition discriminate. }
  subst freshTranscripts.
  assert (Hst1 : st1 = Reconciler.run (es ++ beforeFlush env) initial)
    by (unfold st1; now rewrite ReconcilerFacts.run_app).
  destruct (ReconcilerFacts.reachable_sound
              (es ++ beforeFlush env ++ [Pass true (flushNow env)]))
    as [Hinv1 Hacc1].
  rewrite app_assoc, ReconcilerFacts.run_snoc, <- Hst1 in Hinv1, Hacc1.
  simpl in Hinv1, Hacc1. fold flushed in Hinv1, Hacc1.
  assert (Hinv : invariant final)
    by (unfold final; now apply ReconcilerFacts.run_invariant).
  assert (Hempty : transcriptBuffer flushed = []).
  { apply ReconcilerFacts.pass_empties. intros e _.
    rewrite ReconcilerFacts.tierOf_forced. discriminate. }
  split; [|split; apply Hinv].
  intros s Hs.
  apply (ReconcilerFacts.unique_occurrences final s); [apply Hinv|].
  assert (Hfl : In (Some s) (emittedIds flushed)).
  { destruct (acc_arrived _ _ Hacc1 s) as [H|H]; [|exact H|].
    - rewrite ReconcilerFacts.arrivedIds_app. simpl. now rewrite app_nil_r.
    - rewrite Hempty in H. destruct H. }
  unfold emittedIds in *. apply in_map_iff in Hfl.
  destruct Hfl as [t [Ht Htin]]. apply in_map_iff. exists t.
  split; [exact Ht|]. unfold final. now apply ReconcilerFacts.run_keeps.
Qed.

Lemma persisted_transcript_is_complete_witness :
  count_occ id_eq_dec
    (map sequence_id
       (transcripts
          (processBufferedTranscripts true 0
             (Reconciler.run gapDelivery initial)))) (Some 5)
  = 1%nat.
Proof.
  refine (proj1 (persisted_transcript_is_complete idleEnv true gapDelivery
                   (Some "Weekly sync"%string)
                   (Some "/recordings/weekly"%string) _ eq_refl _) 5 _).
  - vm_compute. right. right. right. left. reflexivity.
  - vm_compute. right. left. reflexivity.
Defined.

End StopFlushFacts.

(** ** What is displayed *)

Module DisplayFacts.

Import Display.

Open Scope string_scope.

(** Below 100, padding the decimal text to two characters gives the two
    digits (checked on each of the hundred values). *)
Lemma padStart2_two_digits (n : Z) :
  0 <= n < 100 -> padStart2 (toString n) = twoDigits n.
Proof.
  intros Hn.
  assert (Hall : forallb
                   (fun k => String.eqb (padStart2 (toString (Z.of_nat k)))
                                        (twoDigits (Z.of_nat k)))
                   (seq 0 100) = true) by (vm_compute; reflexivity).
  rewrite forallb_forall in Hall.
  specialize (Hall (Z.to_nat n)). rewrite Z2Nat.id in Hall by lia.
  apply String.eqb_eq, Hall, in_seq. lia.
Qed.

Lemma digit_injective (a b : Z) :
  0 <= a < 10 -> 0 <= b < 10 -> digit a = digit b -> a = b.
Proof.
  intros Ha Hb H. unfold digit in H.
  apply (f_equal nat_of_ascii) in H.
  rewrite !nat_ascii_embedding in H by lia. lia.
Qed.

Lemma twoDigits_injective (a b : Z) :
  0 <= a < 100 -> 0 <= b < 100 -> twoDigits a = twoDigits b -> a = b.
Proof.
  intros Ha Hb H. unfold twoDigits in H. injection H as Hq Hr.
  apply digit_injective in Hq;
    [|split; [apply Z.div_pos | apply Z.div_lt_upper_bound]; lia
     |split; [apply Z.div_pos | apply Z.div_lt_upper_bound]; lia].
  apply digit_injective in Hr; try (apply Z.mod_pos_bound; lia).
  rewrite (Z.div_mod a 10), (Z.div_mod b 10) by lia. now rewrite Hq, Hr.
Qed.

Lemma formatDuration_digits (seconds : Z) :
  0 <= seconds < 6000 ->
  formatDuration seconds
  = twoDigits (seconds / 60) ++ ":" ++ twoDigits (seconds mod 60).
Proof.
  intros Hs. unfold formatDuration.
  rewrite Z.rem_mod_nonneg by lia.
  rewrite !padStart2_two_digits; [reflexivity | |].
  - pose proof (Z.mod_pos_bound seconds 60). lia.
  - split; [apply Z.div_pos | apply Z.div_lt_upper_bound]; lia.
Qed.

(** X16: for a whole number of seconds from 0 to 5999 the status bar shows
    five characters, the minutes and the seconds below 60 with two decimal
    digits each around a colon, and durations that differ are shown
    differently; minutes do not wrap at 60. *)
Theorem formatDuration_under_100_minutes (seconds : Z) :
  0 <= seconds < 6000 ->
  formatDuration seconds
  = twoDigits (seconds / 60) ++ ":" ++ twoDigits (seconds mod 60)
  /\ String.length (formatDuration seconds) = 5%nat
  /\ (forall other, 0 <= other < 6000 ->
                    formatDuration other = formatDuration seconds ->
                    other = seconds).
Proof.
  intros Hs. split; [now apply formatDuration_digits|]. split.
  - rewrite formatDuration_digits by exact Hs. reflexivity.
  - intros other Ho H. rewrite !formatDuration_digits in H by assumption.
    assert (Hq : forall x, 0 <= x < 6000 -> 0 <= x / 60 < 100).
    { intros x Hx. split; [apply Z.div_pos | apply Z.div_lt_upper_bound];
        lia. }
    assert (Hr : forall x, 0 <= x mod 60 < 100).
    { intros x. pose proof (Z.mod_pos_bound x 60). lia. }
    unfold twoDigits in H. simpl in H. injection H as H1 H2 H3 H4.
    assert (Hmin : other / 60 = seconds / 60).
    { apply twoDigits_injective; [now apply Hq | now apply Hq|].
      unfold twoDigits. now rewrite H1, H2. }
    assert (Hsec : other mod 60 = seconds mod 60).
    { apply twoDigits_injective; [apply Hr | apply Hr|].
      unfold twoDigits. now rewrite H3, H4. }
    rewrite (Z.div_mod other 60), (Z.div_mod seconds 60) by lia.
    now rewrite Hmin, Hsec.
Qed.

Lemma formatDuration_under_100_minutes_witness :
  formatDuration 3725 = "62:05".
Proof.
  rewrite (proj1 (formatDuration_under_100_minutes 3725 ltac:(lia))).
  reflexivity.
Defined.

(** X17: the stamp copied in front of a transcript line drops the fraction
    of its start time; for a start time from 0 to below 6000 seconds it is
    the text the status bar shows for the whole seconds, in brackets, and
    so differs from the stamp of an undefined start time. *)
Theorem formatTime_floors (x : Q) :
  formatTime (Some x) = formatTime (Some (inject_Z (Qfloor x)))
  /\ (0 <= Qfloor x < 6000 ->
      formatTime (Some x)
      = "[" ++ twoDigits (Qfloor x / 60) ++ ":"
            ++ twoDigits (Qfloor x mod 60) ++ "]"
      /\ formatTime (Some x) = "[" ++ formatDuration (Qfloor x) ++ "]"
      /\ formatTime (Some x) <> formatTime None).
Proof.
  split.
  - unfold formatTime. now rewrite Qfloor_Z.
  - intros Hx.
    assert (Hd : formatTime (Some x)
                 = "[" ++ twoDigits (Qfloor x / 60) ++ ":"
                       ++ twoDigits (Qfloor x mod 60) ++ "]").
    { unfold formatTime. rewrite Z.rem_mod_nonneg by lia.
      rewrite !padStart2_two_digits; [reflexivity | |].
      - pose proof (Z.mod_pos_bound (Qfloor x) 60). lia.
      - split; [apply Z.div_pos | apply Z.div_lt_upper_bound]; lia. }
    split; [exact Hd|]. split.
    + rewrite Hd, formatDuration_digits by exact Hx. reflexivity.
    + rewrite Hd. unfold twoDigits, formatTime. simpl. intros H.
      injection H as H1 _. unfold digit in H1.
      apply (f_equal nat_of_ascii) in H1.
      assert (Hq : 0 <= Qfloor x / 60 < 100)
        by (split; [apply Z.div_pos | apply Z.div_lt_upper_bound]; lia).
      assert (Hq10 : 0 <= Qfloor x / 60 / 10 < 10)
        by (split; [apply Z.div_pos | apply Z.div_lt_upper_bound]; lia).
      rewrite nat_ascii_embedding in H1 by lia.
      change (nat_of_ascii "-") with 45%nat in H1. lia.
Qed.

Lemma formatTime_floors_witness :
  formatTime (Some (2509 # 20)) = "[02:05]".
Proof.
  assert (Hrange : 0 <= Qfloor (2509 # 20) < 6000)
    by (vm_compute; split; [discriminate | reflexivity]).
  rewrite (proj1 (proj2 (formatTime_floors (2509 # 20)) Hrange)).
  reflexivity.
Defined.

End DisplayFacts.

(** ** The recording-state check *)

Module HomePageFacts.

Import HomePage.

(** X18: a check whose query is rejected changes no flag; a check never
    clears [isMeetingActive]; a check whose closure holds the flag's
    current value leaves [isRecording] equal to the backend's answer; and a
    check whose closure holds [false], the value captured at mount, never
    clears [isRecording]. *)
Theorem checkRecordingState_syncs (captured : bool) (r : invoke_result bool)
        (ui : Flags) :
  (forall error, checkRecordingState captured (Rejected error) ui = ui)
  /\ (isMeetingActive ui = true ->
      isMeetingActive (checkRecordingState captured r ui) = true)
  /\ (forall backend,
        captured = isRecording ui ->
        isRecording (checkRecordingState captured (Resolved backend) ui)
        = backend)
  /\ (captured = false -> isRecording ui = true ->
      isRecording (checkRecordingState captured r ui) = true).
Proof.
  destruct ui as [rec act]. simpl. repeat split.
  - intros ->. destruct r as [[|]|err], captured; reflexivity.
  - intros backend ->. destruct backend, rec; reflexivity.
  - intros -> ->. destruct r as [[|]|err]; reflexivity.
Qed.

End HomePageFacts.
